(** * pegasus-frontend: the process launcher ([src/backend/ProcessLauncher.cpp])

    A shallow embedding of [ProcessLauncher]: the command builder
    [createLaunchCommand] over strings, and the process runner
    ([launchGame], [runProcess] and the three slots) as a small
    state-and-log monad that can abort on a failed assertion. *)

From Stdlib Require Import List Ascii String Bool Arith Lia ZArith.
Import ListNotations.

Set Implicit Arguments.

(** ** Strings

    A [QString] is the list of its characters.  The launcher inspects only
    the double quote, the characters [%], [/] and [.], the six ASCII
    white-space characters and the letters of the keywords, all of them in
    the 8-bit range, so characters are modelled by [ascii]. *)

Definition QChar := ascii.
Definition QString := list QChar.

(** A string literal as a [QString]. *)
Definition qs (s : string) : QString := list_ascii_of_string s.

Definition dquote : QChar := ascii_of_nat 34.
Definition percent : QChar := ascii_of_nat 37.
Definition slash : QChar := ascii_of_nat 47.
Definition dot : QChar := ascii_of_nat 46.

(** [contains c s]: the character [c] occurs in [s]. *)
Definition contains_char (c : QChar) (s : QString) : bool :=
  existsb (Ascii.eqb c) s.

(** [startsWith p s]: [p] is a prefix of [s] (QString::startsWith). *)
Fixpoint startsWith (p s : QString) : bool :=
  match p, s with
  | [], _ => true
  | _ :: _, [] => false
  | a :: p', b :: s' => Ascii.eqb a b && startsWith p' s'
  end.

(** [occurs p s]: [p] occurs in [s] as a contiguous piece
    (QString::contains on a string argument). *)
Fixpoint occurs (p s : QString) : bool :=
  startsWith p s ||
  match s with
  | [] => false
  | _ :: s' => occurs p s'
  end.

(** Modelled from the spec: QString::replace(before, after) is Qt library
    code, absent from src/.  The spec asks for literal ordered string
    replacement of every occurrence; Qt scans the subject from the left,
    replaces each occurrence of [before] it finds by [after] and resumes the
    scan right behind the replaced piece, so occurrences never overlap and
    the inserted text is not scanned again.  [replace_from] carries the
    number of characters of the current match that are still to be skipped.
    Every call site of the launcher passes a non-empty [before]; on an empty
    one Qt inserts [after] in front of every character and at the end. *)
Fixpoint replace_from (before after : QString) (skip : nat) (s : QString)
  : QString :=
  match s with
  | [] => []
  | c :: s' =>
      match skip with
      | S k => replace_from before after k s'
      | O =>
          if startsWith before s
          then after ++ replace_from before after (Nat.pred (List.length before)) s'
          else c :: replace_from before after 0 s'
      end
  end.

Definition replace (before after s : QString) : QString :=
  match before with
  | [] => after ++ flat_map (fun c => c :: after) s
  | _ :: _ => replace_from before after 0 s
  end.

(** Modelled from the spec: QRegularExpression is Qt library code, absent
    from src/.  The pattern [\s] of [WHITESPACE_REGEX] is compiled without
    the Unicode-properties option, so it matches exactly the characters
    tab, line feed, vertical tab, form feed, carriage return and space. *)
Definition isSpace (c : QChar) : bool :=
  let n := nat_of_ascii c in
  ((9 <=? n) && (n <=? 13)) || (n =? 32).

(** [param.contains(WHITESPACE_REGEX)] *)
Definition containsWhitespace (s : QString) : bool := existsb isSpace s.

(** Modelled from the spec: QFileInfo is Qt library code, absent from src/.
    [fileName] is the path with the directory stripped: what follows the
    last ['/'], the whole path when it has none. *)
Fixpoint fileName (path : QString) : QString :=
  match path with
  | [] => []
  | c :: rest =>
      if contains_char slash rest then fileName rest
      else if Ascii.eqb c slash then rest
      else c :: rest
  end.

(** The characters of [name] up to, not including, its last ['.']; all of
    [name] when it has none. *)
Fixpoint upToLastDot (name : QString) : QString :=
  match name with
  | [] => []
  | c :: rest =>
      if contains_char dot rest then c :: upToLastDot rest
      else if Ascii.eqb c dot then []
      else c :: rest
  end.

(** Modelled from the spec: QFileInfo::completeBaseName is Qt library code,
    absent from src/: the path with the directory and the file extension
    stripped, the last extension only. *)
Definition completeBaseName (path : QString) : QString :=
  upToLastDot (fileName path).

(** ** CommandBuilder: [ProcessLauncher::createLaunchCommand] *)

(** The two entries of the [params] map. *)
Inductive ParamType : Type := PATH | BASENAME.

(** The body of the loop over [params]: literal quotes are tripled, then an
    argument that contains white space is put between quotes. *)
Definition prepareParam (param : QString) : QString :=
  let param := replace [dquote] [dquote; dquote; dquote] param in
  if containsWhitespace param
  then dquote :: param ++ [dquote]
  else param.

(** [params.value(t)] after the loop. *)
Definition params (rom_path : QString) (t : ParamType) : QString :=
  match t with
  | PATH => prepareParam rom_path
  | BASENAME => prepareParam (completeBaseName rom_path)
  end.

(** The keywords of the command string, with and without manual quotes. *)
Definition ROM : QString := qs "ROM".
Definition ROM_RAW : QString := qs "ROM_RAW".
Definition BASENAME_KW : QString := qs "BASENAME".

Definition bare (name : QString) : QString := percent :: name ++ [percent].
Definition quoted (name : QString) : QString := dquote :: bare name ++ [dquote].

(** [createLaunchCommand(platform, game)], on [platform->m_launch_cmd] and
    [game->m_rom_path]: the six replacements in the order of the source. *)
Definition createLaunchCommand (m_launch_cmd m_rom_path : QString) : QString :=
  let launch_cmd := m_launch_cmd in
  (* first, replace manually quoted elements in the command string *)
  let launch_cmd := replace (quoted ROM) (params m_rom_path PATH) launch_cmd in
  let launch_cmd := replace (quoted ROM_RAW) (params m_rom_path PATH) launch_cmd in
  let launch_cmd := replace (quoted BASENAME_KW) (params m_rom_path BASENAME) launch_cmd in
  (* then replace the unquoted forms *)
  let launch_cmd := replace (bare ROM) (params m_rom_path PATH) launch_cmd in
  let launch_cmd := replace (bare ROM_RAW) (params m_rom_path PATH) launch_cmd in
  let launch_cmd := replace (bare BASENAME_KW) (params m_rom_path BASENAME) launch_cmd in
  launch_cmd.

(** ** ProcessRunner: [launchGame], [runProcess] and the slots *)

(** QProcess::ProcessError and QProcess::ExitStatus. *)
Inductive ProcessError : Type :=
  FailedToStart | Crashed | Timedout | ReadError | WriteError | UnknownError.

Inductive ExitStatus : Type := NormalExit | CrashExit.

(** The signals a QProcess sends to the slots connected in [runProcess].
    [started] has no argument in Qt; the process id the slot reads with
    [process->processId()] is carried here. *)
Inductive QProcessSignal : Type :=
| started (pid : Z)
| errorOccurred (error : ProcessError)
| finished (exitcode : Z) (exitstatus : ExitStatus).

(** The QProcess object behind the [process] pointer. *)
Record QProcess : Type := mkQProcess {
  command : QString;          (* the argument of [start] *)
  processId : Z;              (* 0 until the process runs *)
  terminateCalled : bool;
  deleteLaterCalled : bool
}.

(** The launcher object: [process] is null or points to a QProcess. *)
Record ProcessLauncher : Type := mkLauncher {
  process : option QProcess
}.

(** The constructor: [process(nullptr)]. *)
Definition ProcessLauncher_new : ProcessLauncher := mkLauncher None.

(** What the launcher writes to the log; the wording of the source is
    kept in the constructor names, the arguments are the [%1]/[%2] values. *)
Inductive Message : Type :=
| Separator
| ExecutingCommand (launch_cmd : QString)
| ParamValue (param : QString)
| ProcessStarted (pid : Z)
| CouldNotRun (program : QString)
| HasCrashed (program : QString)
| NotStartedInTime (program : QString)
| FailedUnknown (program : QString)
| FinishedCleanly (exitcode : Z)
| CrashedOnExit (exitcode : Z).

(** QtMsgType, as far as the launcher uses it. *)
Inductive Severity : Type := QtDebugMsg | QtInfoMsg | QtWarningMsg.

(** What an observer of the launcher sees: log lines and the signal
    [processFinished] of the launcher itself. *)
Inductive Event : Type :=
| Log (sev : Severity) (msg : Message)
| processFinished.

(** A failed [Q_ASSERT] or a reached [Q_UNREACHABLE] stops the program:
    this is a build with assertions (without them [Q_ASSERT] expands to
    nothing and reaching [Q_UNREACHABLE] is undefined behaviour).  The
    source line of the macro tells the places apart. *)
Inductive Abort : Type :=
| AssertFailed (line : nat)
| UnreachableReached (line : nat).

(** Code of the launcher: it reads and writes the launcher object, appends
    to the log, and either aborts or returns. *)
Definition Run (A : Type) : Type :=
  ProcessLauncher -> list Event * (Abort + A * ProcessLauncher).

Definition ret {A} (a : A) : Run A := fun st => ([], inr (a, st)).

Definition bind {A B} (m : Run A) (k : A -> Run B) : Run B :=
  fun st =>
    match m st with
    | (tr, inl ab) => (tr, inl ab)
    | (tr, inr (a, st')) => let (tr', r) := k a st' in (tr ++ tr', r)
    end.

Declare Scope run_scope.
Delimit Scope run_scope with run.
Notation "x <- m ;; k" := (bind m (fun x => k))
  (at level 100, m at next level, right associativity) : run_scope.
Notation "m ;; k" := (bind m (fun _ => k))
  (at level 100, right associativity) : run_scope.
Local Open Scope run_scope.

Definition emit (e : Event) : Run unit := fun st => ([e], inr (tt, st)).
Definition abort {A} (ab : Abort) : Run A := fun _ => ([], inl ab).
Definition getProcess : Run (option QProcess) :=
  fun st => ([], inr (process st, st)).
Definition setProcess (p : option QProcess) : Run unit :=
  fun _ => ([], inr (tt, mkLauncher p)).

Definition qDebug (m : Message) : Run unit := emit (Log QtDebugMsg m).
Definition qInfo (m : Message) : Run unit := emit (Log QtInfoMsg m).
Definition qWarning (m : Message) : Run unit := emit (Log QtWarningMsg m).

Definition Q_ASSERT (line : nat) (cond : bool) : Run unit :=
  if cond then ret tt else abort (AssertFailed line).
Definition Q_UNREACHABLE {A} (line : nat) : Run A :=
  abort (UnreachableReached line).

(** [Q_ASSERT(process)] followed by a use of [process->...]. *)
Definition assertProcess (line : nat) : Run QProcess :=
  p <- getProcess ;;
  match p with
  | Some q => ret q
  | None => abort (AssertFailed line)
  end.

Section Runner.

(** QProcess::program() after [start(command, mode)]: the first word of the
    command line under Qt's own splitting rules, which the launcher leaves
    to Qt. *)
Variable programOf : QString -> QString.

Definition program (q : QProcess) : QString := programOf (command q).

Definition onProcessStarted : Run unit :=
  q <- assertProcess 89 ;;
  qInfo (ProcessStarted (processId q)).

Definition onProcessFailed (error : ProcessError) : Run unit :=
  q <- assertProcess 95 ;;
  match error with
  | FailedToStart => qWarning (CouldNotRun (program q))
  | Crashed => qWarning (HasCrashed (program q))
  | Timedout => qWarning (NotStartedInTime (program q))
  | ReadError | WriteError =>
      (* We don't communicate with the launched process at the moment *)
      Q_UNREACHABLE 115
  | UnknownError => qWarning (FailedUnknown (program q))
  end.

(** The case [CrashExit] has no [break]: control falls into [default]. *)
Definition onProcessFinished (exitcode : Z) (exitstatus : ExitStatus)
  : Run unit :=
  _ <- assertProcess 126 ;;
  match exitstatus with
  | NormalExit => qInfo (FinishedCleanly exitcode)
  | CrashExit =>
      qInfo (CrashedOnExit exitcode) ;;
      (* If you reach this branch, there was an API change in Qt *)
      Q_UNREACHABLE 137
  end.

(** The delivery of one signal to the slot [runProcess] connected to it.
    The QProcess knows its process id from the moment it has started. *)
Definition deliver (sig : QProcessSignal) : Run unit :=
  match sig with
  | started pid =>
      p <- getProcess ;;
      match p with
      | Some q =>
          setProcess (Some (mkQProcess (command q) pid
                              (terminateCalled q) (deleteLaterCalled q)))
      | None => ret tt
      end ;;
      onProcessStarted
  | errorOccurred error => onProcessFailed error
  | finished exitcode exitstatus => onProcessFinished exitcode exitstatus
  end.

Fixpoint deliverAll (sigs : list QProcessSignal) : Run unit :=
  match sigs with
  | [] => ret tt
  | sig :: rest => deliver sig ;; deliverAll rest
  end.

(** [runProcess(command)].  [sigs] is what the QProcess signals between
    [start] and the return of [waitForFinished]. *)
Definition runProcess (sigs : list QProcessSignal) (cmd : QString)
  : Run unit :=
  p <- getProcess ;;
  Q_ASSERT 69 (match p with None => true | Some _ => false end) ;;
  setProcess (Some (mkQProcess cmd 0 false false)) ;;
  (* start and wait *)
  deliverAll sigs ;;
  (* terminate, deleteLater *)
  q <- getProcess ;;
  match q with
  | Some q => setProcess (Some (mkQProcess (command q) (processId q) true true))
  | None => ret tt
  end.

(** [createLaunchCommand] with the [qDebug] line of each of its [params]. *)
Definition createLaunchCommand_logged (m_launch_cmd m_rom_path : QString)
  : Run QString :=
  qDebug (ParamValue (params m_rom_path PATH)) ;;
  qDebug (ParamValue (params m_rom_path BASENAME)) ;;
  ret (createLaunchCommand m_launch_cmd m_rom_path).

(** [launchGame(platform, game)]. *)
Definition launchGame (sigs : list QProcessSignal)
    (m_launch_cmd m_rom_path : QString) : Run unit :=
  launch_cmd <- createLaunchCommand_logged m_launch_cmd m_rom_path ;;
  qInfo Separator ;;
  qInfo (ExecutingCommand launch_cmd) ;;
  runProcess sigs launch_cmd ;;
  emit processFinished.

End Runner.

(** The member [process] is declared in ProcessLauncher.h, absent from
    src/; [process.data()] and [!process] are the uses of a guarded pointer.
    Back in the event loop the deferred deletion runs, and the guarded
    pointer becomes null. *)
Definition eventLoopDeletes (st : ProcessLauncher) : ProcessLauncher :=
  match process st with
  | Some q => if deleteLaterCalled q then mkLauncher None else st
  | None => st
  end.

(** The lifecycle notifications of the specification, read off the log. *)
Inductive Notification : Type :=
| NStarted (pid : Z)
| NFailed (kind : ProcessError)
| NFinished (exitcode : Z) (status : ExitStatus)
| NDone.

Definition notification (e : Event) : option Notification :=
  match e with
  | Log QtInfoMsg (ProcessStarted pid) => Some (NStarted pid)
  | Log QtWarningMsg (CouldNotRun _) => Some (NFailed FailedToStart)
  | Log QtWarningMsg (HasCrashed _) => Some (NFailed Crashed)
  | Log QtWarningMsg (NotStartedInTime _) => Some (NFailed Timedout)
  | Log QtWarningMsg (FailedUnknown _) => Some (NFailed UnknownError)
  | Log QtInfoMsg (FinishedCleanly c) => Some (NFinished c NormalExit)
  | Log QtInfoMsg (CrashedOnExit c) => Some (NFinished c CrashExit)
  | processFinished => Some NDone
  | _ => None
  end.

Fixpoint notifications (tr : list Event) : list Notification :=
  match tr with
  | [] => []
  | e :: tr' =>
      match notification e with
      | Some n => n :: notifications tr'
      | None => notifications tr'
      end
  end.

(** *** The wait for the process *)

(** Modelled from the spec: QProcess is Qt library code, absent from src/.
    Line 82 calls [waitForFinished()] without argument, and Qt declares
    the function with the default limit [msecs = 30000]: the wait ends
    when the process has finished or when 30 seconds have passed, and in
    the second case the QProcess has not signalled the end of the
    process. *)
Definition waitForFinished_msecs : Z := 30000.

(** Modelled from the spec: what a launched program does, as the QProcess
    sees it: it cannot be started, or it runs as the process [pid] for
    [runtime] milliseconds and ends with an exit code, normally or by a
    crash. *)
Inductive ProcessBehaviour : Type :=
| CannotStart
| RunsFor (pid runtime exitcode : Z) (exitstatus : ExitStatus).

(** Modelled from the spec: the signals of the QProcess between [start]
    and the return of [waitForFinished()]; a crash is signalled as an
    error and then as the end of the process. *)
Definition signalsDuringWait (b : ProcessBehaviour) : list QProcessSignal :=
  match b with
  | CannotStart => [errorOccurred FailedToStart]
  | RunsFor pid runtime exitcode exitstatus =>
      started pid ::
      (if (runtime <? waitForFinished_msecs)%Z
       then match exitstatus with
            | NormalExit => [finished exitcode NormalExit]
            | CrashExit => [errorOccurred Crashed; finished exitcode CrashExit]
            end
       else [])
  end.

(** ** Notions used in the statements *)

(** *** The sanitized value in the words of the specification *)

(** Every double quote becomes three. *)
Definition tripleQuotes (raw : QString) : QString :=
  flat_map (fun c => if Ascii.eqb c dquote then [dquote; dquote; dquote] else [c])
           raw.

(** Escape, then wrap in one pair of quotes exactly when the escaped value
    contains a white-space character. *)
Definition sanitized_spec (raw : QString) : QString :=
  let escaped := tripleQuotes raw in
  if existsb isSpace escaped then [dquote] ++ escaped ++ [dquote] else escaped.

(** *** Traces of the runner *)

(** The trace of [launchGame] up to the call of [runProcess]. *)
Definition preamble (m_launch_cmd m_rom_path : QString) : list Event :=
  [ Log QtDebugMsg (ParamValue (params m_rom_path PATH));
    Log QtDebugMsg (ParamValue (params m_rom_path BASENAME));
    Log QtInfoMsg Separator;
    Log QtInfoMsg (ExecutingCommand (createLaunchCommand m_launch_cmd m_rom_path)) ].

(** Is the event a log line?  The slots only write to the log. *)
Definition isLog (e : Event) : bool :=
  match e with Log _ _ => true | processFinished => false end.

(** The number of [processFinished] signals in a trace. *)
Definition countDone (tr : list Event) : nat :=
  List.length (filter (fun e => negb (isLog e)) tr).

(** Is the signal a pipe error of the QProcess? *)
Definition isPipeError (sig : QProcessSignal) : bool :=
  match sig with
  | errorOccurred ReadError | errorOccurred WriteError => true
  | _ => false
  end.

(** *** Command strings made of keywords and the pieces between them *)

(** [gaps.join(tok)]: the pieces of [gaps] with [tok] between them. *)
Fixpoint join (tok : QString) (gaps : list QString) : QString :=
  match gaps with
  | [] => []
  | g :: rest =>
      match rest with
      | [] => g
      | _ :: _ => g ++ tok ++ join tok rest
      end
  end.

(** The head of a string is not [c]. *)
Definition head_is_not (c : QChar) (s : QString) : Prop :=
  match s with
  | [] => True
  | x :: _ => Ascii.eqb c x = false
  end.

(** The last character of [g] is [c]. *)
Fixpoint endsWith_char (c : QChar) (g : QString) : bool :=
  match g with
  | [] => false
  | x :: g' =>
      match g' with
      | [] => Ascii.eqb c x
      | _ :: _ => endsWith_char c g'
      end
  end.

(** The pieces strictly between two occurrences: all but the first and
    the last. *)
Definition interior (gaps : list QString) : list QString :=
  removelast (tl gaps).

(** An occurrence between [g] and [g'] stands in double quotes. *)
Definition enclosed (g g' : QString) : bool :=
  endsWith_char dquote g && startsWith [dquote] g'.

(** No occurrence in [join tok gaps] stands in double quotes. *)
Fixpoint no_enclosure (gaps : list QString) : bool :=
  match gaps with
  | [] => true
  | g :: rest =>
      match rest with
      | [] => true
      | g' :: _ => negb (enclosed g g') && no_enclosure rest
      end
  end.

(** No piece contains [%]. *)
Definition no_percent (gaps : list QString) : bool :=
  forallb (fun g => negb (contains_char percent g)) gaps.

(** The three keywords and the two forms in which each is replaced. *)
Inductive Keyword : Type := KwROM | KwROM_RAW | KwBASENAME.

Definition keywordName (k : Keyword) : QString :=
  match k with
  | KwROM => ROM
  | KwROM_RAW => ROM_RAW
  | KwBASENAME => BASENAME_KW
  end.

(** The parameter a keyword stands for: [%ROM%] and [%ROM_RAW%] both stand
    for the path. *)
Definition keywordParam (k : Keyword) : ParamType :=
  match k with
  | KwROM | KwROM_RAW => PATH
  | KwBASENAME => BASENAME
  end.

Inductive Form : Type := QuotedForm | BareForm.

Definition token (f : Form) (k : Keyword) : QString :=
  match f with
  | QuotedForm => quoted (keywordName k)
  | BareForm => bare (keywordName k)
  end.

Definition QString_eqb (s t : QString) : bool :=
  if list_eq_dec ascii_dec s t then true else false.

(** [g] is the name of a keyword. *)
Definition is_keyword (g : QString) : bool :=
  existsb (QString_eqb g) [ROM; ROM_RAW; BASENAME_KW].

(** The pieces around the occurrences of one keyword form leave the
    occurrences recognisable: no piece contains [%]; around the unquoted
    form, moreover, no occurrence stands in double quotes, and no piece
    between two occurrences is the name of a keyword. *)
Definition gaps_ok (f : Form) (gaps : list QString) : bool :=
  no_percent gaps &&
  match f with
  | QuotedForm => true
  | BareForm =>
      no_enclosure gaps && forallb (fun g => negb (is_keyword g)) (interior gaps)
  end.

Definition keywords : list Keyword := [KwROM; KwROM_RAW; KwBASENAME].
Definition forms : list Form := [QuotedForm; BareForm].

(** [s] holds no keyword, quoted or not. *)
Definition no_token_left (s : QString) : bool :=
  forallb (fun f => forallb (fun k => negb (occurs (token f k) s)) keywords)
          forms.

(** A replacement value that cannot help to form a keyword: it has no [%]
    and is no piece of a keyword's name (in particular it is not empty). *)
Definition clean_value (v : QString) : bool :=
  negb (contains_char percent v)
  && negb (occurs v ROM_RAW) && negb (occurs v BASENAME_KW).

(** The example of the specification with its expected output, and the
    output of the code. *)
Definition run_quoted_ROM : QString := qs "run " ++ quoted ROM.
Definition run_quoted_expected : QString :=
  qs "run " ++ dquote :: qs "a.rom" ++ [dquote].

(** *** Signals and results of a run *)

(** The signals on which a slot reaches [Q_UNREACHABLE]: a pipe error in
    [onProcessFailed], and the crash exit in [onProcessFinished]. *)
Definition isFatal (sig : QProcessSignal) : bool :=
  match sig with
  | errorOccurred ReadError | errorOccurred WriteError => true
  | finished _ CrashExit => true
  | _ => false
  end.

(** Where the run stops: at the first such signal, in the slot it goes to. *)
Definition firstAbort (sigs : list QProcessSignal) : option Abort :=
  match find isFatal sigs with
  | Some (finished _ _) => Some (UnreachableReached 137)
  | Some _ => Some (UnreachableReached 115)
  | None => None
  end.

(** The process id the QProcess has after the signals: that of the last
    [started]. *)
Definition lastPid (pid0 : Z) (sigs : list QProcessSignal) : Z :=
  fold_left (fun pid sig => match sig with started p => p | _ => pid end)
            sigs pid0.

(** The launcher that owns [q], after the signals [sigs]. *)
Definition launcherAfter (q : QProcess) (sigs : list QProcessSignal)
  : ProcessLauncher :=
  mkLauncher (Some (mkQProcess (command q) (lastPid (processId q) sigs)
                      (terminateCalled q) (deleteLaterCalled q))).

(** The notification that reports a signal. *)
Definition signalNotification (sig : QProcessSignal) : Notification :=
  match sig with
  | started pid => NStarted pid
  | errorOccurred error => NFailed error
  | finished exitcode exitstatus => NFinished exitcode exitstatus
  end.

(** Did the code return? *)
Definition returned {A} (r : list Event * (Abort + A * ProcessLauncher)) : bool :=
  match snd r with inr _ => true | inl _ => false end.

(** The characters of [s] other than the double quote. *)
Definition withoutQuotes (s : QString) : QString :=
  filter (fun c => negb (Ascii.eqb c dquote)) s.

(** *** Command strings as pieces *)

(** A command string read as a sequence of pieces: a piece is one
    literal character or one occurrence of a keyword in one of its forms. *)
Inductive Piece : Type :=
| Lit (c : QChar)
| Tok (f : Form) (k : Keyword).

(** Literal text as pieces. *)
Definition lits (s : QString) : list Piece := map Lit s.

(** The command string that a sequence of pieces stands for. *)
Definition render (ps : list Piece) : QString :=
  flat_map (fun p => match p with Lit c => [c] | Tok f k => token f k end) ps.

(** The same with every occurrence replaced by the parameter of its
    keyword. *)
Definition substituted (rom : QString) (ps : list Piece) : QString :=
  flat_map (fun p => match p with
                     | Lit c => [c]
                     | Tok _ k => params rom (keywordParam k)
                     end) ps.

(** The command string with the name of every occurrence blanked out: what
    the literal text and the [%] and quotes of the occurrences can form. *)
Definition blank : QChar := ascii_of_nat 32.

Definition blanked (ps : list Piece) : QString :=
  flat_map (fun p => match p with
                     | Lit c => [c]
                     | Tok BareForm _ => [percent; blank; percent]
                     | Tok QuotedForm _ =>
                         [dquote; percent; blank; percent; dquote]
                     end) ps.

(** The first character of the pieces is a double quote. *)
Definition next_is_quote (ps : list Piece) : bool :=
  match ps with
  | Lit c :: _ => Ascii.eqb c dquote
  | Tok QuotedForm _ :: _ => true
  | _ => false
  end.

(** No unquoted occurrence stands directly between two double quotes
    ([prev]: the character in front of the pieces is a double quote). *)
Fixpoint no_quoted_bare (prev : bool) (ps : list Piece) : bool :=
  match ps with
  | [] => true
  | Lit c :: rest => no_quoted_bare (Ascii.eqb c dquote) rest
  | Tok QuotedForm _ :: rest => no_quoted_bare true rest
  | Tok BareForm _ :: rest =>
      negb (prev && next_is_quote rest) && no_quoted_bare false rest
  end.

(** The pieces are the only occurrences of keywords: the literal text, with
    the [%] of the occurrences around it, forms no keyword, and every
    occurrence is given in its own form. *)
Definition tidy (ps : list Piece) : bool :=
  forallb (fun k => negb (occurs (bare (keywordName k)) (blanked ps))) keywords
  && no_quoted_bare false ps.

(** The parameters of the keywords that occur are clean values.  The
    unquoted [%BASENAME%] is the keyword of the last pass: what replaces
    it is read by no pass, and may be any value. *)
Definition values_ok (rom : QString) (ps : list Piece) : bool :=
  forallb (fun p => match p with
                    | Lit _ => true
                    | Tok BareForm KwBASENAME => true
                    | Tok _ k => clean_value (params rom (keywordParam k))
                    end) ps.

(** The command string in the middle of the passes: the occurrences that
    [done] marks are replaced, the others stand as they are. *)
Definition shown (done : Form -> Keyword -> bool) (rom : QString) (p : Piece)
  : QString :=
  match p with
  | Lit c => [c]
  | Tok f k => if done f k then params rom (keywordParam k) else token f k
  end.

Definition partially (done : Form -> Keyword -> bool) (rom : QString)
    (ps : list Piece) : QString :=
  flat_map (shown done rom) ps.

(** The parameters that stand in it, those of the occurrences that [done]
    marks, are clean values. *)
Definition values_done (done : Form -> Keyword -> bool) (rom : QString)
    (ps : list Piece) : bool :=
  forallb (fun p => match p with
                    | Lit _ => true
                    | Tok f k =>
                        negb (done f k)
                        || clean_value (params rom (keywordParam k))
                    end) ps.

(** The place of a keyword form in the order of the passes. *)
Definition passIndex (f : Form) (k : Keyword) : nat :=
  match f, k with
  | QuotedForm, KwROM => 0
  | QuotedForm, KwROM_RAW => 1
  | QuotedForm, KwBASENAME => 2
  | BareForm, KwROM => 3
  | BareForm, KwROM_RAW => 4
  | BareForm, KwBASENAME => 5
  end.

(** The forms replaced by the first [j] passes. *)
Definition doneAt (j : nat) (f : Form) (k : Keyword) : bool :=
  passIndex f k <? j.

(** Is the event a line that a slot writes? *)
Definition isSlotLine (e : Event) : bool :=
  match e with
  | Log QtInfoMsg (ProcessStarted _)
  | Log QtInfoMsg (FinishedCleanly _)
  | Log QtInfoMsg (CrashedOnExit _)
  | Log QtWarningMsg (CouldNotRun _)
  | Log QtWarningMsg (HasCrashed _)
  | Log QtWarningMsg (NotStartedInTime _)
  | Log QtWarningMsg (FailedUnknown _) => true
  | _ => false
  end.

(** ** Facts about the string primitives *)

(** The keywords as the source writes them. *)
Lemma tokens_as_in_source :
  bare ROM = qs "%ROM%" /\ bare ROM_RAW = qs "%ROM_RAW%"
  /\ bare BASENAME_KW = qs "%BASENAME%"
  /\ quoted ROM = dquote :: qs "%ROM%" ++ [dquote]
  /\ quoted ROM_RAW = dquote :: qs "%ROM_RAW%" ++ [dquote]
  /\ quoted BASENAME_KW = dquote :: qs "%BASENAME%" ++ [dquote].
Proof. repeat split; reflexivity. Qed.

Lemma startsWith_app (p r : QString) : startsWith p (p ++ r) = true.
Proof.
  induction p as [|a p IH]; simpl; [reflexivity|].
  now rewrite Ascii.eqb_refl.
Qed.

Lemma startsWith_true (p s : QString) :
  startsWith p s = true -> exists r, s = p ++ r.
Proof.
  revert s; induction p as [|a p IH]; intros s H.
  - now exists s.
  - destruct s as [|b s]; simpl in H; [discriminate|].
    apply andb_true_iff in H as [Hab Hp].
    apply Ascii.eqb_eq in Hab; subst b.
    destruct (IH _ Hp) as [r ->]. now exists r.
Qed.

Lemma contains_char_app (c : QChar) (s t : QString) :
  contains_char c (s ++ t) = contains_char c s || contains_char c t.
Proof. unfold contains_char. apply existsb_app. Qed.

Lemma contains_char_false (c : QChar) (s : QString) :
  contains_char c s = false <-> ~ In c s.
Proof.
  unfold contains_char. split.
  - intros H Hin.
    assert (existsb (Ascii.eqb c) s = true) as Ht.
    { apply existsb_exists. exists c. split; [assumption | apply Ascii.eqb_refl]. }
    congruence.
  - intros H. apply not_true_is_false. intros Ht.
    apply existsb_exists in Ht as [x [Hx Hc]].
    apply Ascii.eqb_eq in Hc. subst x. contradiction.
Qed.

Section Replace.

Variables (b0 : QChar) (bs after : QString).
Let before : QString := b0 :: bs.

Lemma replace_from_skip (l r : QString) :
  replace_from before after (List.length l) (l ++ r)
  = replace_from before after 0 r.
Proof. induction l as [|c l IH]; simpl; [reflexivity | exact IH]. Qed.

(** At an occurrence: the replacement, then the scan goes on behind it. *)
Lemma replace_match (r : QString) :
  replace before after (before ++ r) = after ++ replace before after r.
Proof.
  unfold replace, before. cbn [app replace_from].
  change (startsWith (b0 :: bs) (b0 :: bs ++ r))
    with (startsWith (b0 :: bs) ((b0 :: bs) ++ r)).
  rewrite startsWith_app. cbn [List.length Nat.pred].
  now rewrite replace_from_skip.
Qed.

(** Elsewhere: the character is kept and the scan moves on by one. *)
Lemma replace_nomatch (c : QChar) (s : QString) :
  startsWith before (c :: s) = false ->
  replace before after (c :: s) = c :: replace before after s.
Proof.
  intros H. unfold replace, before in *. cbn [replace_from]. now rewrite H.
Qed.

(** The two cases cover every non-empty subject. *)
Lemma replace_cons_cases (c : QChar) (s : QString) :
  (exists r, c :: s = before ++ r /\
             replace before after (c :: s) = after ++ replace before after r)
  \/ (startsWith before (c :: s) = false /\
      replace before after (c :: s) = c :: replace before after s).
Proof.
  destruct (startsWith before (c :: s)) eqn:E.
  - left. destruct (startsWith_true _ _ E) as [r Hr].
    exists r. split; [assumption|]. rewrite Hr. apply replace_match.
  - right. split; [reflexivity | now apply replace_nomatch].
Qed.

(** A subject without the first character of [before] is left alone, and
    the scan continues behind it. *)
Lemma replace_skip_clean (g r : QString) :
  contains_char b0 g = false ->
  replace before after (g ++ r) = g ++ replace before after r.
Proof.
  induction g as [|c g IH]; intros Hg; [reflexivity|].
  unfold contains_char in Hg. cbn [existsb] in Hg. apply orb_false_iff in Hg as [Hc Hg].
  cbn [app]. rewrite replace_nomatch.
  - now rewrite IH.
  - unfold before. cbn [startsWith]. now rewrite Hc.
Qed.

End Replace.

(** A subject that lacks some character of [before] has no occurrence. *)
Lemma startsWith_missing_char (c : QChar) (p s : QString) :
  In c p -> contains_char c s = false -> startsWith p s = false.
Proof.
  intros Hin Hs. apply not_true_is_false. intros H.
  destruct (startsWith_true _ _ H) as [r ->].
  rewrite contains_char_app in Hs. apply orb_false_iff in Hs as [Hp _].
  apply contains_char_false in Hp. contradiction.
Qed.

Lemma replace_missing_char (c b0 : QChar) (bs after s : QString) :
  In c (b0 :: bs) -> contains_char c s = false ->
  replace (b0 :: bs) after s = s.
Proof.
  intros Hin. induction s as [|x s IH]; intros Hs; [reflexivity|].
  rewrite replace_nomatch.
  - f_equal. apply IH. unfold contains_char in *. cbn [existsb] in Hs.
    now apply orb_false_iff in Hs as [_ Hs].
  - now apply startsWith_missing_char with (c := c).
Qed.

(** ** The prepared parameter *)

Lemma replace_dquote_triples (raw : QString) :
  replace [dquote] [dquote; dquote; dquote] raw = tripleQuotes raw.
Proof.
  induction raw as [|c raw IH]; [reflexivity|].
  cbn [tripleQuotes flat_map]. fold (tripleQuotes raw).
  destruct (Ascii.eqb c dquote) eqn:E.
  - apply Ascii.eqb_eq in E. subst c.
    change (dquote :: raw) with ([dquote] ++ raw).
    rewrite replace_match. now rewrite IH.
  - rewrite replace_nomatch; [now rewrite IH|].
    cbn [startsWith]. rewrite Ascii.eqb_sym, E. reflexivity.
Qed.

Lemma tripleQuotes_clean (raw : QString) :
  contains_char dquote raw = false -> tripleQuotes raw = raw.
Proof.
  induction raw as [|c raw IH]; intros H; [reflexivity|].
  unfold contains_char in H. cbn [existsb] in H. apply orb_false_iff in H as [Hc H].
  cbn [tripleQuotes flat_map]. fold (tripleQuotes raw).
  rewrite Ascii.eqb_sym, Hc. cbn [app]. now rewrite IH.
Qed.

Lemma tripleQuotes_whitespace (raw : QString) :
  containsWhitespace (tripleQuotes raw) = containsWhitespace raw.
Proof.
  unfold containsWhitespace.
  induction raw as [|c raw IH]; [reflexivity|].
  cbn [tripleQuotes flat_map]. fold (tripleQuotes raw).
  rewrite existsb_app, IH.
  destruct (Ascii.eqb c dquote) eqn:E.
  - apply Ascii.eqb_eq in E. subst c. reflexivity.
  - cbn [existsb]. now rewrite orb_false_r.
Qed.

(** ** The runner: lifecycle of one launch *)

Section RunnerFacts.

Variable programOf : QString -> QString.

(** [launchGame] is [runProcess] on the built command, between the
    preamble and the signal [processFinished]. *)
Lemma launchGame_unfold sigs tmpl rom st :
  launchGame programOf sigs tmpl rom st
  = match runProcess programOf sigs (createLaunchCommand tmpl rom) st with
    | (tr, inl ab) => (preamble tmpl rom ++ tr, inl ab)
    | (tr, inr (_, st')) =>
        (preamble tmpl rom ++ tr ++ [processFinished], inr (tt, st'))
    end.
Proof.
  unfold launchGame, createLaunchCommand_logged, preamble, qDebug, qInfo, emit,
    ret, bind.
  generalize (createLaunchCommand tmpl rom) as cmd; intros cmd.
  destruct (runProcess programOf sigs cmd st) as [tr [ab | [[] st']]];
    reflexivity.
Qed.

Lemma deliver_logs sig st :
  forallb isLog (fst (deliver programOf sig st)) = true.
Proof.
  destruct st as [[q|]], sig as [pid | [] | code []]; reflexivity.
Qed.

Lemma deliverAll_logs sigs st :
  forallb isLog (fst (deliverAll programOf sigs st)) = true.
Proof.
  revert st; induction sigs as [|sig sigs IH]; intros st; [reflexivity|].
  cbn [deliverAll]. unfold bind.
  pose proof (deliver_logs sig st) as Hd.
  destruct (deliver programOf sig st) as [tr [ab | [[] st']]]; [exact Hd|].
  specialize (IH st').
  destruct (deliverAll programOf sigs st') as [tr' r]. cbn [fst] in *.
  rewrite forallb_app, Hd, IH. reflexivity.
Qed.

(** [runProcess] from a launcher that owns no process: the signals are
    delivered to a fresh QProcess, which is then asked to terminate and
    scheduled for deletion. *)
Lemma runProcess_unfold sigs cmd :
  runProcess programOf sigs cmd (mkLauncher None)
  = match deliverAll programOf sigs
            (mkLauncher (Some (mkQProcess cmd 0 false false))) with
    | (tr, inl ab) => (tr, inl ab)
    | (tr, inr (_, st')) =>
        (tr, inr (tt, match process st' with
                      | Some q => mkLauncher (Some (mkQProcess (command q)
                                                      (processId q) true true))
                      | None => st'
                      end))
    end.
Proof.
  unfold runProcess, bind, getProcess, setProcess, Q_ASSERT, ret.
  cbn [process app].
  destruct (deliverAll programOf sigs _) as [tr [ab | [[] [[q|]]]]];
    cbn [process]; rewrite ?app_nil_r; reflexivity.
Qed.

Lemma runProcess_logs sigs cmd st :
  forallb isLog (fst (runProcess programOf sigs cmd st)) = true.
Proof.
  destruct st as [[q|]]; [reflexivity|].
  rewrite runProcess_unfold.
  pose proof (deliverAll_logs sigs
                (mkLauncher (Some (mkQProcess cmd 0 false false)))) as H.
  destruct (deliverAll programOf sigs _) as [tr [ab | [[] st']]]; exact H.
Qed.

Lemma countDone_logs tr : forallb isLog tr = true -> countDone tr = 0.
Proof.
  unfold countDone. induction tr as [|e tr IH]; [reflexivity|].
  cbn [forallb filter]. intros H. apply andb_true_iff in H as [He H].
  rewrite He. cbn [negb]. now apply IH.
Qed.

Lemma countDone_app tr1 tr2 :
  countDone (tr1 ++ tr2) = countDone tr1 + countDone tr2.
Proof. unfold countDone. now rewrite filter_app, length_app. Qed.

(** While the launcher owns its process and no pipe error is signalled,
    the slots keep the process, and the only way to abort is the
    [Q_UNREACHABLE] of [onProcessFinished]. *)
Lemma deliverAll_owned sigs : forall q,
  existsb isPipeError sigs = false ->
  match deliverAll programOf sigs (mkLauncher (Some q)) with
  | (_, inl ab) => ab = UnreachableReached 137
  | (_, inr (_, st')) => exists q', process st' = Some q'
  end.
Proof.
  induction sigs as [|sig sigs IH]; intros q H.
  - cbn. now exists q.
  - cbn [existsb] in H. apply orb_false_iff in H as [Hs H].
    cbn [deliverAll]. unfold bind.
    destruct sig as [pid | error | code status].
    + cbn. specialize (IH (mkQProcess (command q) pid (terminateCalled q)
                             (deleteLaterCalled q)) H).
      destruct (deliverAll programOf sigs _) as [tr [ab | [[] st']]]; exact IH.
    + destruct error; try discriminate Hs; cbn;
        specialize (IH q H);
        destruct (deliverAll programOf sigs _) as [tr [ab | [[] st']]];
        exact IH.
    + destruct status; cbn; [|reflexivity].
      specialize (IH q H).
      destruct (deliverAll programOf sigs _) as [tr [ab | [[] st']]]; exact IH.
Qed.

(** The slots never give up the process. *)
Lemma deliverAll_keeps_process sigs : forall q tr st',
  deliverAll programOf sigs (mkLauncher (Some q)) = (tr, inr (tt, st')) ->
  exists q', process st' = Some q'.
Proof.
  induction sigs as [|sig sigs IH]; intros q tr st' H.
  - injection H as _ <-. now exists q.
  - cbn [deliverAll] in H. unfold bind in H.
    destruct sig as [pid | error | code status].
    + cbn in H.
      destruct (deliverAll programOf sigs _) as [tr' [ab | [[] st'']]] eqn:E;
        [discriminate|].
      injection H as _ <-. exact (IH _ _ _ E).
    + destruct error; cbn in H; try discriminate H;
        (destruct (deliverAll programOf sigs _) as [tr' [ab | [[] st'']]] eqn:E;
          [discriminate|]);
        injection H as _ <-; exact (IH _ _ _ E).
    + destruct status; cbn in H; [|discriminate H].
      destruct (deliverAll programOf sigs _) as [tr' [ab | [[] st'']]] eqn:E;
        [discriminate|].
      injection H as _ <-. exact (IH _ _ _ E).
Qed.

(** After [runProcess] has returned the launcher still holds the process,
    scheduled for deletion: a second [runProcess] before the event loop
    has run fails the assertion of line 69; after it, the launcher is
    free again. *)
Lemma relaunch_before_deletion sigs cmd st tr st' :
  runProcess programOf sigs cmd st = (tr, inr (tt, st')) ->
  (forall sigs2 cmd2,
      runProcess programOf sigs2 cmd2 st' = ([], inl (AssertFailed 69)))
  /\ process (eventLoopDeletes st') = None.
Proof.
  destruct st as [[q|]]; [discriminate|].
  rewrite runProcess_unfold.
  destruct (deliverAll programOf sigs _) as [tr' [ab | [[] st'']]] eqn:E;
    [discriminate|].
  destruct (deliverAll_keeps_process _ _ E) as [q' Hq'].
  rewrite Hq'. intros H. injection H as _ <-. split; reflexivity.
Qed.

End RunnerFacts.

(** ** Keywords in a command string *)

Lemma contains_char_cons (c a : QChar) (s : QString) :
  contains_char c (a :: s) = Ascii.eqb c a || contains_char c s.
Proof. reflexivity. Qed.

Lemma contains_char_cons_false (c a : QChar) (s : QString) :
  contains_char c (a :: s) = false ->
  Ascii.eqb c a = false /\ contains_char c s = false.
Proof. rewrite contains_char_cons. apply orb_false_iff. Qed.

Lemma startsWith_cons (a b : QChar) (p s : QString) :
  startsWith (a :: p) (b :: s) = Ascii.eqb a b && startsWith p s.
Proof. reflexivity. Qed.

(** Two names without [%], each followed by [%]: one is a prefix of the
    other only when they are the same name. *)
Lemma startsWith_names (n' : QString) : forall (n x y : QString),
  contains_char percent n = false -> contains_char percent n' = false ->
  startsWith (n' ++ percent :: x) (n ++ percent :: y) = true ->
  n' = n /\ startsWith x y = true.
Proof.
  induction n' as [|a' n' IH]; intros n x y Hn Hn' H.
  - destruct n as [|a n]; cbn [app] in H.
    + rewrite startsWith_cons, Ascii.eqb_refl in H. now split.
    + apply contains_char_cons_false in Hn as [Ha _].
      rewrite startsWith_cons, Ha in H. discriminate.
  - apply contains_char_cons_false in Hn' as [Ha' Hn'].
    destruct n as [|a n]; cbn [app] in H; rewrite startsWith_cons in H;
      apply andb_true_iff in H as [Hc H]; apply Ascii.eqb_eq in Hc; subst a'.
    + rewrite Ascii.eqb_refl in Ha'. discriminate.
    + apply contains_char_cons_false in Hn as [_ Hn].
      destruct (IH n x y Hn Hn' H) as [-> Hxy]. now split.
Qed.

Lemma contains_char_join (c : QChar) (tok : QString) (gaps : list QString) :
  contains_char c tok = false ->
  forallb (fun g => negb (contains_char c g)) gaps = true ->
  contains_char c (join tok gaps) = false.
Proof.
  intros Ht. induction gaps as [|g rest IH]; intros H; [reflexivity|].
  cbn [forallb] in H. apply andb_true_iff in H as [Hg H].
  apply negb_true_iff in Hg.
  destruct rest as [|g' rest]; [exact Hg|].
  cbn [join] in *. rewrite !contains_char_app, Hg, Ht. now apply IH.
Qed.

Lemma head_is_not_clean (c : QChar) (s : QString) :
  contains_char c s = false -> head_is_not c s.
Proof.
  destruct s as [|x s]; [easy|]. intros H.
  now apply contains_char_cons_false in H as [H _].
Qed.

Lemma head_is_not_join (c : QChar) (tok : QString) (gaps : list QString) :
  head_is_not c tok ->
  tok <> [] ->
  forallb (fun g => negb (contains_char c g)) gaps = true ->
  head_is_not c (join tok gaps).
Proof.
  intros Ht Hne H. destruct gaps as [|g rest]; [easy|].
  cbn [forallb] in H. apply andb_true_iff in H as [Hg _].
  apply negb_true_iff in Hg.
  destruct rest as [|g' rest]; cbn [join].
  - now apply head_is_not_clean.
  - destruct g as [|x g].
    + destruct tok as [|t tok]; [contradiction | exact Ht].
    + now apply contains_char_cons_false in Hg as [Hg _].
Qed.

Section ReplaceGaps.

Variables (b0 b1 : QChar) (bs after : QString).
Let before : QString := b0 :: b1 :: bs.

(** A piece without the second character of [before], followed by
    something that does not start with it, holds no occurrence. *)
Lemma replace_skip_gap (g r : QString) :
  contains_char b1 g = false -> head_is_not b1 r ->
  replace before after (g ++ r) = g ++ replace before after r.
Proof.
  intros Hg Hr. unfold before. induction g as [|c g IH]; [reflexivity|].
  apply contains_char_cons_false in Hg as [_ Hg].
  cbn [app]. rewrite replace_nomatch; [now rewrite IH|].
  rewrite startsWith_cons.
  destruct (Ascii.eqb b0 c); [|reflexivity]. cbn [andb].
  destruct g as [|y g]; cbn [app].
  - destruct r as [|x r]; [reflexivity|]. cbn in Hr.
    rewrite startsWith_cons, Hr. reflexivity.
  - apply contains_char_cons_false in Hg as [Hy _].
    rewrite startsWith_cons, Hy. reflexivity.
Qed.

End ReplaceGaps.

Lemma quoted_eq (m : QString) :
  quoted m = dquote :: percent :: m ++ [percent; dquote].
Proof. unfold quoted, bare. cbn [app]. now rewrite <- app_assoc. Qed.

Lemma quoted_app (m R : QString) :
  quoted m ++ R = dquote :: (percent :: m ++ [percent]) ++ dquote :: R.
Proof. unfold quoted, bare. cbn [app]. now rewrite <- !app_assoc. Qed.

Section Passes.

Variables (n n' v : QString).
Hypothesis n_percent : contains_char percent n = false.
Hypothesis n_dquote : contains_char dquote n = false.
Hypothesis n'_percent : contains_char percent n' = false.

Lemma bare_no_dquote : contains_char dquote (bare n) = false.
Proof.
  unfold bare. rewrite contains_char_cons, contains_char_app, n_dquote.
  reflexivity.
Qed.

(** The pass of an unquoted keyword over its own occurrences. *)
Lemma pass_bare_same (gaps : list QString) :
  forallb (fun g => negb (contains_char percent g)) gaps = true ->
  replace (bare n) v (join (bare n) gaps) = join v gaps.
Proof.
  induction gaps as [|g rest IH]; intros H; [reflexivity|].
  cbn [forallb] in H. apply andb_true_iff in H as [Hg H].
  apply negb_true_iff in Hg.
  destruct rest as [|g' rest].
  - cbn [join]. apply replace_missing_char with (c := percent);
      [now left | exact Hg].
  - change (join (bare n) (g :: g' :: rest))
      with (g ++ bare n ++ join (bare n) (g' :: rest)).
    change (join v (g :: g' :: rest)) with (g ++ v ++ join v (g' :: rest)).
    unfold bare at 1 2. rewrite replace_skip_clean by exact Hg.
    rewrite replace_match. rewrite <- (IH H). reflexivity.
Qed.

(** The pass of a quoted keyword over its own occurrences. *)
Lemma pass_quoted_same (gaps : list QString) :
  forallb (fun g => negb (contains_char percent g)) gaps = true ->
  replace (quoted n) v (join (quoted n) gaps) = join v gaps.
Proof.
  induction gaps as [|g rest IH]; intros H; [reflexivity|].
  cbn [forallb] in H. apply andb_true_iff in H as [Hg H].
  apply negb_true_iff in Hg.
  destruct rest as [|g' rest].
  - cbn [join]. apply replace_missing_char with (c := percent);
      [right; now left | exact Hg].
  - change (join (quoted n) (g :: g' :: rest))
      with (g ++ quoted n ++ join (quoted n) (g' :: rest)).
    change (join v (g :: g' :: rest)) with (g ++ v ++ join v (g' :: rest)).
    unfold quoted at 1 2, bare at 1 2. cbn [app].
    rewrite replace_skip_gap; [| exact Hg | reflexivity].
    change (dquote :: percent :: ((n ++ [percent]) ++ [dquote])
              ++ join (quoted n) (g' :: rest))
      with ((dquote :: percent :: (n ++ [percent]) ++ [dquote])
              ++ join (quoted n) (g' :: rest)).
    rewrite replace_match. rewrite <- (IH H). reflexivity.
Qed.

Hypothesis other : n' <> n.

(** Another quoted keyword does not match at a quoted occurrence that is
    not followed by [%]. *)
Lemma quoted_other_token (R : QString) :
  head_is_not percent R ->
  replace (quoted n') v (quoted n ++ R) = quoted n ++ replace (quoted n') v R.
Proof.
  intros Hhead.
  rewrite (quoted_app n R), (quoted_app n (replace (quoted n') v R)),
    (quoted_eq n').
  (* at the opening quote: the names differ *)
  rewrite replace_nomatch.
  2:{ apply not_true_is_false. intros Hs.
      cbn [app] in Hs.
      rewrite !startsWith_cons, !Ascii.eqb_refl in Hs. cbn [andb] in Hs.
      rewrite <- app_assoc in Hs. cbn [app] in Hs.
      apply startsWith_names in Hs as [Hs _]; auto. }
  f_equal.
  (* inside the keyword there is no quote *)
  rewrite replace_skip_clean by apply bare_no_dquote.
  f_equal.
  (* at the closing quote: no [%] follows *)
  apply replace_nomatch.
  rewrite startsWith_cons, Ascii.eqb_refl. cbn [andb].
  destruct R as [|x R]; [reflexivity|]. cbn [head_is_not] in Hhead.
  rewrite startsWith_cons, Hhead. reflexivity.
Qed.

(** The pass of another quoted keyword leaves the occurrences alone. *)
Lemma pass_quoted_other (gaps : list QString) :
  forallb (fun g => negb (contains_char percent g)) gaps = true ->
  replace (quoted n') v (join (quoted n) gaps) = join (quoted n) gaps.
Proof.
  induction gaps as [|g rest IH]; intros H; [reflexivity|].
  cbn [forallb] in H. apply andb_true_iff in H as [Hg H].
  apply negb_true_iff in Hg.
  destruct rest as [|g' rest].
  - cbn [join]. apply replace_missing_char with (c := percent);
      [right; now left | exact Hg].
  - change (join (quoted n) (g :: g' :: rest))
      with (g ++ quoted n ++ join (quoted n) (g' :: rest)).
    assert (head_is_not percent (join (quoted n) (g' :: rest))) as Hhead.
    { apply head_is_not_join; [reflexivity | discriminate | exact H]. }
    rewrite (quoted_eq n') at 1.
    rewrite replace_skip_gap; [| exact Hg | reflexivity].
    rewrite <- (quoted_eq n').
    rewrite quoted_other_token by exact Hhead.
    now rewrite (IH H).
Qed.

End Passes.

Section BarePasses.

Variables (n n' v : QString).
Hypothesis n_percent : contains_char percent n = false.
Hypothesis n_dquote : contains_char dquote n = false.
Hypothesis n'_percent : contains_char percent n' = false.

Lemma startsWith_dquote_join (gaps : list QString) :
  startsWith [dquote] (join (bare n) gaps) = true ->
  exists g rest, gaps = g :: rest /\ startsWith [dquote] g = true.
Proof.
  destruct gaps as [|g rest]; [discriminate|].
  intros H. exists g, rest. split; [reflexivity|].
  destruct rest as [|g' rest]; [exact H|].
  destruct g as [|x g]; [discriminate H | exact H].
Qed.

(** A quoted keyword finds nothing in front of an unquoted occurrence that
    is not enclosed in quotes. *)
Lemma quoted_skip_gap_before_bare (g R : QString) :
  contains_char percent g = false ->
  endsWith_char dquote g && startsWith [dquote] R = false ->
  replace (quoted n') v (g ++ bare n ++ R)
  = g ++ replace (quoted n') v (bare n ++ R).
Proof.
  intros Hg Henc. induction g as [|c g IH]; [reflexivity|].
  apply contains_char_cons_false in Hg as [_ Hg].
  cbn [app]. rewrite (quoted_eq n') at 1. rewrite replace_nomatch.
  - rewrite <- (quoted_eq n'). f_equal. apply IH; [exact Hg|].
    destruct g as [|y g]; [reflexivity | exact Henc].
  - apply not_true_is_false. intros Hs.
    rewrite startsWith_cons in Hs. apply andb_true_iff in Hs as [Hc Hs].
    destruct g as [|y g]; cbn [app] in Hs.
    + unfold bare in Hs. cbn [app] in Hs.
      rewrite startsWith_cons, Ascii.eqb_refl in Hs. cbn [andb] in Hs.
      rewrite <- app_assoc in Hs. cbn [app] in Hs.
      apply startsWith_names in Hs as [_ Hs]; auto.
      cbn [endsWith_char] in Henc. rewrite Hc, Hs in Henc. discriminate.
    + apply contains_char_cons_false in Hg as [Hy _].
      rewrite startsWith_cons, Hy in Hs. discriminate.
Qed.

(** The pass of a quoted keyword over unquoted occurrences, none of which
    is enclosed in quotes: nothing changes. *)
Lemma pass_quoted_over_bare (gaps : list QString) :
  no_percent gaps = true -> no_enclosure gaps = true ->
  replace (quoted n') v (join (bare n) gaps) = join (bare n) gaps.
Proof.
  induction gaps as [|g rest IH]; intros H He; [reflexivity|].
  unfold no_percent in *. cbn [forallb] in H.
  apply andb_true_iff in H as [Hg H]. apply negb_true_iff in Hg.
  destruct rest as [|g' rest].
  - cbn [join]. rewrite quoted_eq.
    apply replace_missing_char with (c := percent);
      [right; now left | exact Hg].
  - cbn [no_enclosure] in He. apply andb_true_iff in He as [Henc He].
    apply negb_true_iff in Henc.
    change (join (bare n) (g :: g' :: rest))
      with (g ++ bare n ++ join (bare n) (g' :: rest)).
    rewrite quoted_skip_gap_before_bare; [| exact Hg |].
    + f_equal. rewrite (quoted_eq n') at 1.
      rewrite replace_skip_clean by apply (bare_no_dquote n n_dquote).
      rewrite <- (quoted_eq n'). now rewrite (IH H He).
    + apply not_true_is_false. intros Ht.
      apply andb_true_iff in Ht as [Ht1 Ht2].
      apply startsWith_dquote_join in Ht2 as [g0 [rest0 [Heq Ht2]]].
      injection Heq as <- <-. unfold enclosed in Henc.
      rewrite Ht1, Ht2 in Henc. discriminate.
Qed.

Hypothesis other : n' <> n.

(** Another unquoted keyword does not match at an unquoted occurrence,
    unless what follows is that keyword's name and a [%]. *)
Lemma bare_other_token (R : QString) :
  startsWith (n' ++ [percent]) R = false ->
  replace (bare n') v (bare n ++ R) = bare n ++ replace (bare n') v R.
Proof.
  intros HR. unfold bare. cbn [app]. rewrite <- !app_assoc. cbn [app].
  rewrite replace_nomatch.
  2:{ apply not_true_is_false. intros Hs.
      rewrite startsWith_cons, Ascii.eqb_refl in Hs. cbn [andb] in Hs.
      apply startsWith_names in Hs as [Hs _]; auto. }
  f_equal. rewrite replace_skip_clean by exact n_percent. f_equal.
  apply replace_nomatch.
  rewrite startsWith_cons, Ascii.eqb_refl. exact HR.
Qed.

(** The pass of another unquoted keyword leaves the occurrences alone when
    no piece between two of them is that keyword's name. *)
Lemma pass_bare_other (gaps : list QString) :
  no_percent gaps = true ->
  Forall (fun g => g <> n') (interior gaps) ->
  replace (bare n') v (join (bare n) gaps) = join (bare n) gaps.
Proof.
  induction gaps as [|g rest IH]; intros H Hi; [reflexivity|].
  unfold no_percent in *. cbn [forallb] in H.
  apply andb_true_iff in H as [Hg H]. apply negb_true_iff in Hg.
  destruct rest as [|g' rest].
  - cbn [join]. apply replace_missing_char with (c := percent);
      [now left | exact Hg].
  - change (join (bare n) (g :: g' :: rest))
      with (g ++ bare n ++ join (bare n) (g' :: rest)).
    unfold bare at 1. rewrite replace_skip_clean by exact Hg.
    fold (bare n'). f_equal.
    pose proof H as H'. cbn [forallb] in H'.
    apply andb_true_iff in H' as [Hg' _]. apply negb_true_iff in Hg'.
    rewrite bare_other_token.
    + f_equal. apply IH; [exact H|].
      destruct rest as [|g'' rest]; [constructor|].
      unfold interior in *. cbn [tl removelast] in *.
      now inversion Hi.
    + destruct rest as [|g'' rest]; cbn [join].
      * apply startsWith_missing_char with (c := percent);
          [apply in_or_app; right; now left | exact Hg'].
      * apply not_true_is_false. intros Hs.
        unfold bare in Hs. cbn [app] in Hs.
        apply startsWith_names in Hs as [Hs _]; auto.
        unfold interior in Hi. cbn [tl removelast] in Hi.
        inversion Hi as [|? ? Hne _]. now apply Hne.
Qed.

End BarePasses.

(** ** Occurrences of one keyword form in a command string *)

Lemma replace_quoted_clean (m v s : QString) :
  contains_char percent s = false -> replace (quoted m) v s = s.
Proof.
  intros H. rewrite quoted_eq.
  apply replace_missing_char with (c := percent); [right; now left | exact H].
Qed.

Lemma replace_bare_clean (m v s : QString) :
  contains_char percent s = false -> replace (bare m) v s = s.
Proof.
  intros H. apply replace_missing_char with (c := percent);
    [now left | exact H].
Qed.

Lemma contains_char_tripleQuotes (c : QChar) (s : QString) :
  Ascii.eqb c dquote = false ->
  contains_char c (tripleQuotes s) = contains_char c s.
Proof.
  intros Hc. induction s as [|x s IH]; [reflexivity|].
  cbn [tripleQuotes flat_map]. fold (tripleQuotes s).
  rewrite contains_char_app, IH, contains_char_cons.
  destruct (Ascii.eqb x dquote) eqn:E.
  - apply Ascii.eqb_eq in E. subst x.
    rewrite !contains_char_cons, Hc. reflexivity.
  - rewrite contains_char_cons. cbn [contains_char existsb].
    now rewrite orb_false_r.
Qed.

Lemma contains_char_prepareParam (c : QChar) (s : QString) :
  Ascii.eqb c dquote = false ->
  contains_char c (prepareParam s) = contains_char c s.
Proof.
  intros Hc. unfold prepareParam. rewrite replace_dquote_triples.
  destruct (containsWhitespace (tripleQuotes s)).
  - rewrite contains_char_cons, contains_char_app, contains_char_cons, Hc.
    rewrite contains_char_tripleQuotes by exact Hc.
    cbn [contains_char existsb]. now rewrite !orb_false_r.
  - now apply contains_char_tripleQuotes.
Qed.

Lemma contains_char_fileName (c : QChar) (p : QString) :
  contains_char c p = false -> contains_char c (fileName p) = false.
Proof.
  induction p as [|x p IH]; intros H; [reflexivity|].
  pose proof H as H'. apply contains_char_cons_false in H' as [_ Hp].
  cbn [fileName]. destruct (contains_char slash p); [now apply IH|].
  destruct (Ascii.eqb x slash); assumption.
Qed.

Lemma contains_char_upToLastDot (c : QChar) (p : QString) :
  contains_char c p = false -> contains_char c (upToLastDot p) = false.
Proof.
  induction p as [|x p IH]; intros H; [reflexivity|].
  pose proof H as H'. apply contains_char_cons_false in H' as [Hx Hp].
  cbn [upToLastDot]. destruct (contains_char dot p).
  - rewrite contains_char_cons, Hx. now apply IH.
  - destruct (Ascii.eqb x dot); [reflexivity | assumption].
Qed.

Lemma params_no_percent (rom : QString) (t : ParamType) :
  contains_char percent rom = false ->
  contains_char percent (params rom t) = false.
Proof.
  intros H. destruct t; cbn [params];
    rewrite contains_char_prepareParam by reflexivity; [exact H|].
  now apply contains_char_upToLastDot, contains_char_fileName.
Qed.

Lemma is_keyword_false (g : QString) (k : Keyword) :
  is_keyword g = false -> g <> keywordName k.
Proof.
  unfold is_keyword, QString_eqb. cbn [existsb]. intros H ->.
  destruct k; cbn [keywordName] in H;
    repeat match type of H with
           | context [list_eq_dec ascii_dec ?a ?b] =>
               destruct (list_eq_dec ascii_dec a b);
               [discriminate H | try contradiction]
           end.
Qed.

Lemma interior_not_keyword (gaps : list QString) (k : Keyword) :
  forallb (fun g => negb (is_keyword g)) (interior gaps) = true ->
  Forall (fun g => g <> keywordName k) (interior gaps).
Proof.
  intros H. apply Forall_forall. intros g Hg.
  rewrite forallb_forall in H. specialize (H g Hg).
  apply negb_true_iff in H. now apply is_keyword_false.
Qed.

(** A pass over a string that has no [%] left changes nothing. *)
Ltac clean_pass :=
  match goal with
  | |- context [replace (quoted ?m) ?v (join ?w ?g)] =>
      rewrite (replace_quoted_clean m v (join w g)) by auto
  | |- context [replace (bare ?m) ?v (join ?w ?g)] =>
      rewrite (replace_bare_clean m v (join w g)) by auto
  end.

(** What the passes need to know about the pieces and the parameters. *)
Lemma join_clean (gaps : list QString) (v : QString) :
  no_percent gaps = true ->
  contains_char percent v = false ->
  contains_char percent (join v gaps) = false.
Proof. intros Hp Hv. now apply contains_char_join. Qed.

(** A command string made of quoted occurrences of one keyword, with pieces
    without [%] between them, and a path without [%]: every occurrence
    becomes the prepared parameter of the keyword, and the pieces stay. *)
Lemma createLaunchCommand_join_quoted (k : Keyword)
    (gaps : list QString) (rom : QString) :
  no_percent gaps = true ->
  contains_char percent rom = false ->
  createLaunchCommand (join (quoted (keywordName k)) gaps) rom
  = join (params rom (keywordParam k)) gaps.
Proof.
  intros Hp Hrom.
  pose proof (join_clean gaps (params rom PATH) Hp
                (params_no_percent rom PATH Hrom)) as Hvp.
  pose proof (join_clean gaps (params rom BASENAME) Hp
                (params_no_percent rom BASENAME Hrom)) as Hvb.
  unfold createLaunchCommand.
  destruct k; cbn [keywordName keywordParam].
  - rewrite (pass_quoted_same ROM) by assumption.
    repeat clean_pass. reflexivity.
  - rewrite (@pass_quoted_other ROM_RAW ROM); try (reflexivity || assumption);
      [|discriminate].
    rewrite (pass_quoted_same ROM_RAW) by assumption.
    repeat clean_pass. reflexivity.
  - rewrite (@pass_quoted_other BASENAME_KW ROM);
      try (reflexivity || assumption); [|discriminate].
    rewrite (@pass_quoted_other BASENAME_KW ROM_RAW);
      try (reflexivity || assumption); [|discriminate].
    rewrite (pass_quoted_same BASENAME_KW) by assumption.
    repeat clean_pass. reflexivity.
Qed.

(** ** No keyword is left over *)

Lemma occurs_cons (p : QString) (c : QChar) (s : QString) :
  occurs p (c :: s) = startsWith p (c :: s) || occurs p s.
Proof. reflexivity. Qed.

Lemma occurs_app_r (p l r : QString) :
  occurs p (l ++ r) = false -> occurs p r = false.
Proof.
  induction l as [|c l IH]; intros H; [exact H|].
  cbn [app] in H. rewrite occurs_cons in H.
  apply orb_false_iff in H as [_ H]. now apply IH.
Qed.

(** An occurrence cannot begin inside a piece that lacks its first
    character. *)
Lemma occurs_skip_clean (p0 : QChar) (p l r : QString) :
  contains_char p0 l = false ->
  occurs (p0 :: p) (l ++ r) = occurs (p0 :: p) r.
Proof.
  induction l as [|c l IH]; intros H; [reflexivity|].
  apply contains_char_cons_false in H as [Hc H].
  cbn [app]. rewrite occurs_cons, startsWith_cons, Hc. cbn [andb orb].
  now apply IH.
Qed.

(** The first [length p] characters decide [startsWith p]. *)
Lemma startsWith_app_l (p s t : QString) :
  startsWith p s = true -> startsWith p (s ++ t) = true.
Proof.
  intros H. destruct (startsWith_true _ _ H) as [r ->].
  rewrite <- app_assoc. apply startsWith_app.
Qed.

Lemma occurs_app_l (p s t : QString) :
  occurs p s = true -> occurs p (s ++ t) = true.
Proof.
  induction s as [|c s IH]; intros H.
  - destruct p as [|a p]; [destruct t; reflexivity | discriminate H].
  - cbn [app]. rewrite occurs_cons in *.
    apply orb_true_iff in H as [H | H]; apply orb_true_iff.
    + left. now apply (startsWith_app_l _ (c :: s) t).
    + right. now apply IH.
Qed.

(** A piece of a piece. *)
Lemma occurs_inside (x t y s : QString) :
  occurs (x ++ t ++ y) s = true -> occurs t s = true.
Proof.
  induction s as [|c s IH]; intros H.
  - destruct x as [|a x]; [|discriminate H].
    destruct t as [|b t]; [reflexivity | discriminate H].
  - rewrite occurs_cons in H. apply orb_true_iff in H as [H | H].
    + destruct (startsWith_true _ _ H) as [r Hr]. rewrite Hr.
      rewrite <- app_assoc.
      clear. induction x as [|a x IHx]; cbn [app].
      * rewrite <- app_assoc.
        destruct t as [|b t]; [destruct (y ++ r); reflexivity|].
        cbn [app]. rewrite occurs_cons.
        change (b :: t ++ y ++ r) with ((b :: t) ++ y ++ r).
        now rewrite startsWith_app.
      * rewrite occurs_cons, IHx. apply orb_true_r.
    + rewrite occurs_cons, (IH H). apply orb_true_r.
Qed.

Section Leftover.

Variables (ps v : QString).
Let before : QString := percent :: ps.
Hypothesis v_percent : contains_char percent v = false.

(** If a name and its closing [%] begin at the front of [v ++ X], and [v]
    has no [%], then the name begins with [v]. *)
Lemma startsWith_bridge : forall (w m X : QString),
  contains_char percent w = false ->
  startsWith (m ++ [percent]) (w ++ X) = true ->
  startsWith w m = true.
Proof.
  induction w as [|x w IH]; intros m X Hw H; [destruct m; reflexivity|].
  apply contains_char_cons_false in Hw as [Hx Hw].
  destruct m as [|a m]; cbn [app] in H; rewrite startsWith_cons in H;
    apply andb_true_iff in H as [Hc H].
  - congruence.
  - apply Ascii.eqb_eq in Hc. subst a.
    rewrite startsWith_cons, Ascii.eqb_refl. cbn [andb]. now apply (IH m X).
Qed.

(** What follows an opening [%] up to the closing one is not made by the
    pass: if the rest of a name and its closing [%] stand at the front of
    the result, they stood at the front of the subject. *)
Lemma startsWith_after_pass (m : QString) : forall r : QString,
  contains_char percent m = false ->
  occurs v m = false ->
  startsWith (m ++ [percent]) (replace before v r) = true ->
  startsWith (m ++ [percent]) r = true.
Proof.
  unfold before.
  induction m as [|a m IH]; intros r Hm Hv H.
  - destruct r as [|c s]; [discriminate H|].
    destruct (replace_cons_cases percent ps v c s) as [[r' [Hr _]] | [_ Hn]].
    + injection Hr as -> _. reflexivity.
    + rewrite Hn in H. exact H.
  - destruct r as [|c s]; [discriminate H|].
    apply contains_char_cons_false in Hm as [Ha Hm].
    rewrite occurs_cons in Hv. apply orb_false_iff in Hv as [Hv0 Hv].
    destruct (replace_cons_cases percent ps v c s) as [[r' [_ Hr]] | [_ Hn]].
    + rewrite Hr in H.
      apply (startsWith_bridge v (a :: m)) in H; [congruence | exact v_percent].
    + rewrite Hn in H. cbn [app] in *. rewrite startsWith_cons in *.
      apply andb_true_iff in H as [Hc H]. rewrite Hc. cbn [andb].
      now apply IH.
Qed.

Variable n : QString.
Hypothesis n_percent : contains_char percent n = false.
Hypothesis v_piece : occurs v n = false.

(** A pass whose replacement has no [%] and is no piece of the name [n]
    leaves no occurrence of the unquoted keyword [n]: its own occurrences
    go, and it makes no new one of another keyword. *)
Lemma no_leftover_after_pass : forall (k : nat) (s : QString),
  List.length s <= k ->
  before = bare n \/ occurs (bare n) s = false ->
  occurs (bare n) (replace before v s) = false.
Proof.
  unfold before.
  induction k as [|k IH]; intros s Hk Hs.
  - destruct s; [reflexivity | cbn [List.length] in Hk; lia].
  - destruct s as [|c s]; [reflexivity|]. cbn [List.length] in Hk.
    destruct (replace_cons_cases percent ps v c s)
      as [[r [Hr Hrep]] | [Hno Hrep]]; rewrite Hrep.
    + unfold bare at 1. rewrite occurs_skip_clean by exact v_percent.
      fold (bare n). apply IH.
      * apply (f_equal (@List.length QChar)) in Hr.
        cbn [List.length app] in Hr. rewrite length_app in Hr.
        cbn [List.length] in Hr. lia.
      * destruct Hs as [Hs | Hs]; [now left | right].
        rewrite Hr in Hs. now apply occurs_app_r in Hs.
    + rewrite occurs_cons. apply orb_false_iff. split.
      * apply not_true_is_false. intros Hst.
        unfold bare in Hst. rewrite startsWith_cons in Hst.
        apply andb_true_iff in Hst as [Hc Hst].
        apply startsWith_after_pass in Hst; [| exact n_percent | exact v_piece].
        assert (startsWith (bare n) (c :: s) = true) as Hfront.
        { unfold bare. rewrite startsWith_cons, Hc. exact Hst. }
        destruct Hs as [Hs | Hs].
        -- rewrite Hs in Hno. congruence.
        -- rewrite occurs_cons, Hfront in Hs. discriminate.
      * apply IH; [lia|].
        destruct Hs as [Hs | Hs]; [now left | right].
        rewrite occurs_cons in Hs. now apply orb_false_iff in Hs as [_ Hs].
Qed.

End Leftover.

Lemma occurs_false_app_l (p s t : QString) :
  occurs p (s ++ t) = false -> occurs p s = false.
Proof.
  intros H. apply not_true_is_false. intros Hs.
  apply (occurs_app_l _ _ t) in Hs. congruence.
Qed.

Lemma quoted_gone (m s : QString) :
  occurs (bare m) s = false -> occurs (quoted m) s = false.
Proof.
  intros H. apply not_true_is_false. intros Hq.
  change (quoted m) with ([dquote] ++ bare m ++ [dquote]) in Hq.
  apply occurs_inside in Hq. congruence.
Qed.

(** ** The base name *)

Lemma fileName_bare (name : QString) :
  contains_char slash name = false -> fileName name = name.
Proof.
  induction name as [|c name IH]; intros H; [reflexivity|].
  apply contains_char_cons_false in H as [Hc H].
  cbn [fileName]. rewrite H, Ascii.eqb_sym, Hc. reflexivity.
Qed.

Lemma fileName_dir (dir name : QString) :
  contains_char slash name = false -> fileName (dir ++ slash :: name) = name.
Proof.
  intros H. induction dir as [|c dir IH]; cbn [app fileName].
  - rewrite H, Ascii.eqb_refl. reflexivity.
  - rewrite contains_char_app, contains_char_cons, Ascii.eqb_refl.
    rewrite orb_true_r. exact IH.
Qed.

Lemma upToLastDot_none (name : QString) :
  contains_char dot name = false -> upToLastDot name = name.
Proof.
  induction name as [|c name IH]; intros H; [reflexivity|].
  apply contains_char_cons_false in H as [Hc H].
  cbn [upToLastDot]. rewrite H, Ascii.eqb_sym, Hc. reflexivity.
Qed.

Lemma upToLastDot_ext (base ext : QString) :
  contains_char dot ext = false -> upToLastDot (base ++ dot :: ext) = base.
Proof.
  intros H. induction base as [|c base IH]; cbn [app upToLastDot].
  - rewrite H, Ascii.eqb_refl. reflexivity.
  - rewrite contains_char_app, contains_char_cons, Ascii.eqb_refl.
    rewrite orb_true_r. now rewrite IH.
Qed.

(** ** Command strings as pieces: what the passes find *)

Lemma Keyword_eq_dec (k k' : Keyword) : {k = k'} + {k <> k'}.
Proof. decide equality. Qed.

Lemma keywordName_percent (k : Keyword) :
  contains_char percent (keywordName k) = false.
Proof. now destruct k. Qed.

Lemma keywordName_dquote (k : Keyword) :
  contains_char dquote (keywordName k) = false.
Proof. now destruct k. Qed.

Lemma keywordName_injective (k k' : Keyword) :
  keywordName k = keywordName k' -> k = k'.
Proof. destruct k, k'; intros H; try reflexivity; discriminate H. Qed.

Lemma clean_value_no_percent (v : QString) :
  clean_value v = true -> contains_char percent v = false.
Proof.
  unfold clean_value. intros H.
  apply andb_true_iff in H as [H _]. apply andb_true_iff in H as [H _].
  now apply negb_true_iff in H.
Qed.

Lemma clean_value_no_piece (v : QString) (k : Keyword) :
  clean_value v = true -> occurs v (keywordName k) = false.
Proof.
  unfold clean_value. intros H.
  apply andb_true_iff in H as [H H3]. apply andb_true_iff in H as [_ H2].
  apply negb_true_iff in H2, H3.
  destruct k; cbn [keywordName]; try assumption.
  apply (occurs_false_app_l _ ROM (qs "_RAW")). exact H2.
Qed.

Lemma occurs_at (p a s : QString) :
  startsWith p s = true -> occurs p (a ++ s) = true.
Proof.
  intros H. induction a as [|x a IH]; cbn [app].
  - destruct s; cbn [occurs]; now rewrite H.
  - rewrite occurs_cons, IH. apply orb_true_r.
Qed.

Lemma startsWith_front (p q s : QString) :
  startsWith (p ++ q) s = true -> startsWith p s = true.
Proof.
  revert s. induction p as [|a p IH]; intros s H; [reflexivity|].
  destruct s as [|x s]; [discriminate H|].
  cbn [app] in H. rewrite startsWith_cons in *.
  apply andb_true_iff in H as [Hx H]. rewrite Hx. cbn [andb]. now apply IH.
Qed.

Lemma replace_match_bare (n v R : QString) :
  replace (bare n) v (bare n ++ R) = v ++ replace (bare n) v R.
Proof. exact (replace_match percent (n ++ [percent]) v R). Qed.

Lemma replace_match_quoted (n v R : QString) :
  replace (quoted n) v (quoted n ++ R) = v ++ replace (quoted n) v R.
Proof. exact (replace_match dquote (bare n ++ [dquote]) v R). Qed.

Lemma replace_bare_skip (n v g R : QString) :
  contains_char percent g = false ->
  replace (bare n) v (g ++ R) = g ++ replace (bare n) v R.
Proof. exact (replace_skip_clean percent (n ++ [percent]) v g R). Qed.

Lemma replace_quoted_skip (n v g R : QString) :
  contains_char dquote g = false ->
  replace (quoted n) v (g ++ R) = g ++ replace (quoted n) v R.
Proof. exact (replace_skip_clean dquote (bare n ++ [dquote]) v g R). Qed.

(** The pattern of a quoted keyword behind its opening quote. *)
Lemma startsWith_quoted (n : QString) (c : QChar) (R : QString) :
  startsWith (quoted n) (c :: R)
  = Ascii.eqb dquote c && startsWith (bare n ++ [dquote]) R.
Proof. reflexivity. Qed.

Lemma startsWith_bare (n : QString) (c : QChar) (R : QString) :
  startsWith (bare n) (c :: R)
  = Ascii.eqb percent c && startsWith (n ++ [percent]) R.
Proof. reflexivity. Qed.

Lemma replace_nomatch_bare (n v : QString) (c : QChar) (s : QString) :
  startsWith (bare n) (c :: s) = false ->
  replace (bare n) v (c :: s) = c :: replace (bare n) v s.
Proof. exact (replace_nomatch percent (n ++ [percent]) v c s). Qed.

Lemma replace_nomatch_quoted (n v : QString) (c : QChar) (s : QString) :
  startsWith (quoted n) (c :: s) = false ->
  replace (quoted n) v (c :: s) = c :: replace (quoted n) v s.
Proof. exact (replace_nomatch dquote (bare n ++ [dquote]) v c s). Qed.

Lemma bare_app (n X : QString) :
  bare n ++ X = percent :: n ++ percent :: X.
Proof. unfold bare. cbn [app]. now rewrite <- app_assoc. Qed.

(** A quoted keyword finds nothing inside a piece without [%], unless the
    piece ends in a quote and the keyword with its closing quote follows. *)
Lemma replace_quoted_skip_value (n v g R : QString) :
  contains_char percent g = false ->
  startsWith (bare n ++ [dquote]) R = false ->
  replace (quoted n) v (g ++ R) = g ++ replace (quoted n) v R.
Proof.
  intros Hg HR. induction g as [|c g IH]; [reflexivity|].
  apply contains_char_cons_false in Hg as [_ Hg].
  cbn [app]. rewrite replace_nomatch_quoted.
  - f_equal. now apply IH.
  - rewrite startsWith_quoted.
    destruct (Ascii.eqb dquote c); [|reflexivity]. cbn [andb].
    destruct g as [|y g]; [exact HR|].
    apply contains_char_cons_false in Hg as [Hy _].
    rewrite bare_app. cbn [app]. now rewrite startsWith_cons, Hy.
Qed.

(** Another quoted keyword does not match at a quoted occurrence, unless
    behind it that keyword follows with a closing quote. *)
Lemma replace_quoted_other (n n' v R : QString) :
  contains_char percent n = false -> contains_char dquote n = false ->
  contains_char percent n' = false -> n' <> n ->
  startsWith (bare n' ++ [dquote]) R = false ->
  replace (quoted n') v (quoted n ++ R) = quoted n ++ replace (quoted n') v R.
Proof.
  intros Hn Hq Hn' Hne HR.
  rewrite (quoted_app n R), (quoted_app n (replace (quoted n') v R)).
  rewrite replace_nomatch_quoted.
  2:{ rewrite startsWith_quoted, Ascii.eqb_refl. cbn [andb].
      apply not_true_is_false. intros Hs.
      rewrite bare_app in Hs. cbn [app] in Hs.
      rewrite startsWith_cons, Ascii.eqb_refl in Hs. cbn [andb] in Hs.
      rewrite <- app_assoc in Hs. cbn [app] in Hs.
      apply startsWith_names in Hs as [Hs _]; auto. }
  f_equal.
  rewrite replace_quoted_skip by (apply bare_no_dquote; exact Hq).
  f_equal. rewrite replace_nomatch_quoted; [reflexivity|].
  rewrite startsWith_quoted, Ascii.eqb_refl. exact HR.
Qed.

(** Another unquoted keyword does not match at an unquoted occurrence,
    unless behind it that keyword's name follows with a [%]. *)
Lemma replace_bare_other (n n' v R : QString) :
  contains_char percent n = false -> contains_char percent n' = false ->
  n' <> n ->
  startsWith (n' ++ [percent]) R = false ->
  replace (bare n') v (bare n ++ R) = bare n ++ replace (bare n') v R.
Proof.
  intros Hn Hn' Hne HR.
  rewrite (bare_app n R), (bare_app n (replace (bare n') v R)).
  rewrite replace_nomatch_bare.
  2:{ rewrite startsWith_bare, Ascii.eqb_refl. cbn [andb].
      apply not_true_is_false. intros Hs.
      apply startsWith_names in Hs as [Hs _]; auto. }
  f_equal. rewrite replace_bare_skip by exact Hn. f_equal.
  rewrite replace_nomatch_bare; [reflexivity|].
  rewrite startsWith_bare, Ascii.eqb_refl. exact HR.
Qed.

Section PiecePasses.

Variable rom : QString.

Lemma values_done_cons (done : Form -> Keyword -> bool) (p : Piece)
    (ps : list Piece) :
  values_done done rom (p :: ps) = true ->
  match p with
  | Lit _ => True
  | Tok f k =>
      done f k = true -> clean_value (params rom (keywordParam k)) = true
  end /\ values_done done rom ps = true.
Proof.
  unfold values_done. cbn [forallb]. intros H.
  apply andb_true_iff in H as [Hp H]. split; [|exact H].
  destruct p as [c | f k]; [exact I|].
  intros Hd. now rewrite Hd in Hp.
Qed.

Lemma partially_cons (done : Form -> Keyword -> bool) (p : Piece)
    (ps : list Piece) :
  partially done rom (p :: ps) = shown done rom p ++ partially done rom ps.
Proof. reflexivity. Qed.

Lemma blanked_cons (p : Piece) (ps : list Piece) :
  blanked (p :: ps) = blanked [p] ++ blanked ps.
Proof. unfold blanked. cbn [flat_map]. now rewrite app_nil_r. Qed.

(** Behind the front of a keyword, the rest of its name and the closing
    [%] are found in the command string in the middle of the passes only
    where the literal text and the [%] of the occurrences have them: a
    replaced occurrence, being a clean value, has no part in it. *)
Lemma lookahead_name (done : Form -> Keyword -> bool) (k0 : Keyword) :
  forall (ps : list Piece) (a m : QString),
  keywordName k0 = a ++ m ->
  values_done done rom ps = true ->
  startsWith (m ++ [percent]) (partially done rom ps) = true ->
  startsWith (m ++ [percent]) (blanked ps) = true.
Proof.
  induction ps as [|p ps IH]; intros a m Hn Hv H.
  - destruct m; discriminate H.
  - apply values_done_cons in Hv as [Hp Hv].
    assert (contains_char percent m = false) as Hm.
    { pose proof (keywordName_percent k0) as Hk. rewrite Hn in Hk.
      rewrite contains_char_app in Hk. now apply orb_false_iff in Hk. }
    assert (contains_char dquote m = false) as Hq.
    { pose proof (keywordName_dquote k0) as Hk. rewrite Hn in Hk.
      rewrite contains_char_app in Hk. now apply orb_false_iff in Hk. }
    rewrite partially_cons in H. rewrite blanked_cons.
    destruct p as [c | f k]; cbn [shown] in H.
    + (* a literal character *)
      cbn [blanked flat_map app] in *.
      destruct m as [|x m]; [exact H|].
      cbn [app] in *. rewrite startsWith_cons in *.
      apply andb_true_iff in H as [Hx H]. rewrite Hx. cbn [andb].
      apply (IH (a ++ [x]) m); [now rewrite <- app_assoc | exact Hv | exact H].
    + destruct (done f k).
      * (* a replaced occurrence *)
        exfalso. specialize (Hp eq_refl).
        apply startsWith_bridge in H;
          [|now apply clean_value_no_percent].
        apply (occurs_at _ a) in H. rewrite <- Hn in H.
        rewrite (clean_value_no_piece _ k0 Hp) in H. discriminate H.
      * (* an occurrence that still stands *)
        destruct f; cbn [token] in H.
        -- exfalso. rewrite quoted_eq in H. cbn [app] in H.
           destruct m as [|x m]; cbn [app] in H; rewrite startsWith_cons in H.
           ++ discriminate H.
           ++ apply contains_char_cons_false in Hq as [Hx _].
              rewrite Ascii.eqb_sym, Hx in H. discriminate H.
        -- rewrite bare_app in H.
           destruct m as [|x m]; cbn [app] in H; rewrite startsWith_cons in H.
           ++ reflexivity.
           ++ apply contains_char_cons_false in Hm as [Hx _].
              rewrite Ascii.eqb_sym, Hx in H. discriminate H.
Qed.

(** During the quoted passes: a double quote at the front of the command
    string in the middle of the passes is one of the original. *)
Lemma head_quote (done : Form -> Keyword -> bool) (ps : list Piece) :
  (forall k, done BareForm k = false) ->
  startsWith [dquote] (partially done rom ps) = true ->
  next_is_quote ps = true.
Proof.
  intros Hb H. destruct ps as [|[c | [] k] ps]; cbn [next_is_quote].
  - discriminate H.
  - rewrite partially_cons in H. cbn [shown app] in H.
    rewrite startsWith_cons in H. apply andb_true_iff in H as [H _].
    now rewrite Ascii.eqb_sym.
  - reflexivity.
  - rewrite partially_cons in H. cbn [shown] in H. rewrite Hb in H.
    cbn [token] in H. rewrite bare_app in H. discriminate H.
Qed.

(** During the quoted passes: where an unquoted keyword with a closing
    quote stands at the front, the literal text forms that keyword, or an
    unquoted occurrence stands there in front of a quote. *)
Lemma lookahead_quoted (done : Form -> Keyword -> bool) (k0 : Keyword)
    (ps : list Piece) :
  (forall k, done BareForm k = false) ->
  values_done done rom ps = true ->
  startsWith (bare (keywordName k0) ++ [dquote]) (partially done rom ps) = true ->
  occurs (bare (keywordName k0)) (blanked ps) = true
  \/ exists k r, ps = Tok BareForm k :: r /\ next_is_quote r = true.
Proof.
  intros Hb Hv H. destruct ps as [|[c | f k] ps]; [discriminate H| |].
  - (* a literal character *)
    left. apply values_done_cons in Hv as [_ Hv].
    rewrite partially_cons in H. cbn [shown app] in H.
    apply startsWith_front in H. rewrite startsWith_bare in H.
    apply andb_true_iff in H as [Hc H]. apply Ascii.eqb_eq in Hc. subst c.
    apply (lookahead_name done k0 ps [] (keywordName k0) eq_refl Hv) in H.
    rewrite blanked_cons. cbn [blanked flat_map app].
    rewrite occurs_cons, startsWith_bare, Ascii.eqb_refl, H. reflexivity.
  - apply values_done_cons in Hv as [Hp Hv].
    rewrite partially_cons in H. cbn [shown] in H.
    destruct f.
    + (* a quoted occurrence, replaced or not: no [%] in front *)
      exfalso. rewrite bare_app in H. cbn [app] in H.
      destruct (done QuotedForm k).
      * specialize (Hp eq_refl).
        pose proof (clean_value_no_percent _ Hp) as Hc.
        pose proof (clean_value_no_piece _ k0 Hp) as Hn.
        destruct (params rom (keywordParam k)) as [|x v].
        -- destruct (keywordName k0); discriminate Hn.
        -- apply contains_char_cons_false in Hc as [Hx _].
           cbn [app] in H. rewrite startsWith_cons, Hx in H. discriminate H.
      * cbn [token] in H. rewrite quoted_eq in H. discriminate H.
    + (* an unquoted occurrence, which still stands *)
      right. exists k, ps. split; [reflexivity|].
      rewrite Hb in H. cbn [token] in H.
      rewrite !bare_app in H. cbn [app] in H.
      rewrite startsWith_cons, Ascii.eqb_refl in H. cbn [andb] in H.
      apply startsWith_names in H as [_ H];
        [| apply keywordName_percent | apply keywordName_percent].
      now apply (head_quote done).
Qed.

(** Behind a double quote no quoted keyword begins, when no unquoted
    occurrence stands between quotes and the literal text forms no
    keyword. *)
Lemma no_match_after_quote (done : Form -> Keyword -> bool) (k0 : Keyword)
    (ps : list Piece) :
  (forall k, done BareForm k = false) ->
  values_done done rom ps = true ->
  occurs (bare (keywordName k0)) (blanked ps) = false ->
  no_quoted_bare true ps = true ->
  startsWith (bare (keywordName k0) ++ [dquote]) (partially done rom ps) = false.
Proof.
  intros Hb Hv Ho Hq. apply not_true_is_false. intros H.
  destruct (lookahead_quoted done k0 ps Hb Hv H) as [Hl | [k [r [-> Hr]]]].
  - congruence.
  - cbn [no_quoted_bare] in Hq. rewrite Hr in Hq. discriminate Hq.
Qed.

Lemma occurs_blanked_tail (n : QString) (p : Piece) (ps : list Piece) :
  occurs n (blanked (p :: ps)) = false -> occurs n (blanked ps) = false.
Proof. rewrite blanked_cons. apply occurs_app_r. Qed.

(** The pass of an unquoted keyword, after the quoted passes: it replaces
    the unquoted occurrences of its keyword, all of them, and nothing
    else. *)
Lemma pass_bare_pieces (done done' : Form -> Keyword -> bool) (k : Keyword) :
  (forall k', done QuotedForm k' = true) ->
  done BareForm k = false ->
  (forall k', done' QuotedForm k' = true) ->
  done' BareForm k = true ->
  (forall k', k' <> k -> done' BareForm k' = done BareForm k') ->
  forall ps : list Piece,
  values_done done rom ps = true ->
  occurs (bare (keywordName k)) (blanked ps) = false ->
  replace (bare (keywordName k)) (params rom (keywordParam k))
    (partially done rom ps)
  = partially done' rom ps.
Proof.
  intros Hq Hk Hq' Hk' Hother.
  induction ps as [|p ps IH]; intros Hv Ho; [reflexivity|].
  pose proof (occurs_blanked_tail _ _ _ Ho) as Ho'.
  pose proof Hv as Hv0. apply values_done_cons in Hv as [Hp Hv].
  rewrite !partially_cons. destruct p as [c | f k']; cbn [shown].
  - (* a literal character *)
    cbn [app]. rewrite replace_nomatch_bare; [now rewrite IH|].
    apply not_true_is_false. intros Hs. rewrite startsWith_bare in Hs.
    apply andb_true_iff in Hs as [Hc Hs].
    apply (lookahead_name done k ps [] (keywordName k) eq_refl Hv) in Hs.
    rewrite blanked_cons in Ho. cbn [blanked flat_map app] in Ho.
    rewrite occurs_cons, startsWith_bare, Hc, Hs in Ho. discriminate Ho.
  - destruct f.
    + (* a quoted occurrence: replaced before *)
      specialize (Hp (Hq k')). rewrite Hq, Hq'.
      rewrite replace_bare_skip by (now apply clean_value_no_percent).
      now rewrite IH.
    + destruct (Keyword_eq_dec k' k) as [-> | Hne].
      * (* an occurrence of this keyword *)
        rewrite Hk, Hk'. cbn [token]. rewrite replace_match_bare.
        now rewrite IH.
      * rewrite (Hother k' Hne). destruct (done BareForm k').
        -- specialize (Hp eq_refl).
           rewrite replace_bare_skip by (now apply clean_value_no_percent).
           now rewrite IH.
        -- cbn [token]. rewrite replace_bare_other.
           ++ now rewrite IH.
           ++ apply keywordName_percent.
           ++ apply keywordName_percent.
           ++ intros E. apply keywordName_injective in E. congruence.
           ++ apply not_true_is_false. intros Hs.
              apply (lookahead_name done k ps [] (keywordName k) eq_refl Hv)
                in Hs.
              rewrite blanked_cons in Ho. cbn [blanked flat_map] in Ho.
              change ([percent; blank; percent] ++ [])
                with ([percent; blank] ++ [percent]) in Ho.
              rewrite <- app_assoc in Ho.
              rewrite (occurs_at (bare (keywordName k)) [percent; blank]) in Ho;
                [discriminate Ho|].
              cbn [app]. now rewrite startsWith_bare, Ascii.eqb_refl.
Qed.

(** The pass of a quoted keyword, before the unquoted passes: it replaces
    the quoted occurrences of its keyword, all of them, and nothing
    else. *)
Lemma pass_quoted_pieces (done done' : Form -> Keyword -> bool) (k : Keyword) :
  (forall k', done BareForm k' = false) ->
  done QuotedForm k = false ->
  (forall k', done' BareForm k' = false) ->
  done' QuotedForm k = true ->
  (forall k', k' <> k -> done' QuotedForm k' = done QuotedForm k') ->
  forall (ps : list Piece) (prev : bool),
  values_done done rom ps = true ->
  occurs (bare (keywordName k)) (blanked ps) = false ->
  no_quoted_bare prev ps = true ->
  replace (quoted (keywordName k)) (params rom (keywordParam k))
    (partially done rom ps)
  = partially done' rom ps.
Proof.
  intros Hb Hk Hb' Hk' Hother.
  induction ps as [|p ps IH]; intros prev Hv Ho Hn; [reflexivity|].
  pose proof (occurs_blanked_tail _ _ _ Ho) as Ho'.
  apply values_done_cons in Hv as [Hp Hv].
  rewrite !partially_cons. destruct p as [c | f k']; cbn [shown].
  - (* a literal character *)
    cbn [no_quoted_bare] in Hn.
    cbn [app]. rewrite replace_nomatch_quoted; [now rewrite (IH _ Hv Ho' Hn)|].
    rewrite startsWith_quoted.
    destruct (Ascii.eqb dquote c) eqn:Ec; [|reflexivity]. cbn [andb].
    rewrite Ascii.eqb_sym, Ec in Hn.
    now apply no_match_after_quote.
  - destruct f.
    + cbn [no_quoted_bare] in Hn.
      pose proof (no_match_after_quote done k ps Hb Hv Ho' Hn) as Hafter.
      destruct (Keyword_eq_dec k' k) as [-> | Hne].
      * (* an occurrence of this keyword *)
        rewrite Hk, Hk'. cbn [token]. rewrite replace_match_quoted.
        now rewrite (IH _ Hv Ho' Hn).
      * rewrite (Hother k' Hne). destruct (done QuotedForm k').
        -- specialize (Hp eq_refl).
           rewrite replace_quoted_skip_value;
             [| now apply clean_value_no_percent | exact Hafter].
           now rewrite (IH _ Hv Ho' Hn).
        -- cbn [token]. rewrite replace_quoted_other.
           ++ now rewrite (IH _ Hv Ho' Hn).
           ++ apply keywordName_percent.
           ++ apply keywordName_dquote.
           ++ apply keywordName_percent.
           ++ intros E. apply keywordName_injective in E. congruence.
           ++ exact Hafter.
    + (* an unquoted occurrence: it stands, and has no quote in it *)
      cbn [no_quoted_bare] in Hn. apply andb_true_iff in Hn as [_ Hn].
      rewrite Hb, Hb'. cbn [token].
      rewrite replace_quoted_skip
        by (apply bare_no_dquote; apply keywordName_dquote).
      now rewrite (IH _ Hv Ho' Hn).
Qed.

End PiecePasses.

Lemma partially_none (rom : QString) (ps : list Piece) :
  partially (doneAt 0) rom ps = render ps.
Proof.
  unfold partially, render. apply flat_map_ext. now intros [c | [] []].
Qed.

Lemma partially_all (rom : QString) (ps : list Piece) :
  partially (doneAt 6) rom ps = substituted rom ps.
Proof.
  unfold partially, substituted. apply flat_map_ext. now intros [c | [] []].
Qed.

(** Before each of the six passes, the parameters that stand in the
    command string are clean. *)
Lemma values_ok_done (j : nat) (rom : QString) (ps : list Piece) :
  j <= 5 ->
  values_ok rom ps = true -> values_done (doneAt j) rom ps = true.
Proof.
  intros Hj. unfold values_ok, values_done.
  induction ps as [|p ps IH]; [reflexivity|].
  cbn [forallb]. intros H. apply andb_true_iff in H as [Hp H].
  rewrite (IH H), andb_true_r.
  destruct p as [c | f k]; [reflexivity|].
  destruct (doneAt j f k) eqn:Hd; [|reflexivity]. cbn [negb orb].
  destruct f, k; try exact Hp.
  unfold doneAt in Hd. cbn [passIndex] in Hd. apply Nat.ltb_lt in Hd. lia.
Qed.

Lemma tidy_no_keyword (ps : list Piece) (k : Keyword) :
  tidy ps = true -> occurs (bare (keywordName k)) (blanked ps) = false.
Proof.
  unfold tidy, keywords. cbn [forallb]. intros H.
  apply andb_true_iff in H as [H _].
  apply andb_true_iff in H as [H1 H]. apply andb_true_iff in H as [H2 H].
  apply andb_true_iff in H as [H3 _].
  apply negb_true_iff in H1, H2, H3. now destruct k.
Qed.

Lemma tidy_not_quoted (ps : list Piece) :
  tidy ps = true -> no_quoted_bare false ps = true.
Proof. unfold tidy. intros H. now apply andb_true_iff in H as [_ H]. Qed.

(** The three quoted passes over a tidy command string with clean
    parameters: every quoted occurrence is replaced, the unquoted ones and
    the literal text stand. *)
Lemma quoted_passes_pieces (ps : list Piece) (rom : QString) :
  tidy ps = true ->
  values_ok rom ps = true ->
  replace (quoted BASENAME_KW) (params rom BASENAME)
    (replace (quoted ROM_RAW) (params rom PATH)
       (replace (quoted ROM) (params rom PATH) (render ps)))
  = partially (doneAt 3) rom ps.
Proof.
  intros Ht Hv. pose proof (tidy_not_quoted ps Ht) as Hn.
  assert (forall j k, j = passIndex QuotedForm k ->
            replace (quoted (keywordName k)) (params rom (keywordParam k))
              (partially (doneAt j) rom ps)
            = partially (doneAt (S j)) rom ps) as Hquoted.
  { intros j k ->.
    apply (@pass_quoted_pieces rom (doneAt (passIndex QuotedForm k))
             (doneAt (S (passIndex QuotedForm k))) k) with (prev := false);
      try assumption.
    - now destruct k; intros [].
    - now destruct k.
    - now destruct k; intros [].
    - now destruct k.
    - destruct k; intros [] E; try reflexivity; congruence.
    - apply values_ok_done; [destruct k; cbn [passIndex]; lia | exact Hv].
    - now apply tidy_no_keyword. }
  pose proof (Hquoted 0 KwROM eq_refl) as P0.
  pose proof (Hquoted 1 KwROM_RAW eq_refl) as P1.
  pose proof (Hquoted 2 KwBASENAME eq_refl) as P2.
  cbn [keywordName keywordParam] in P0, P1, P2.
  rewrite <- (partially_none rom ps). now rewrite P0, P1, P2.
Qed.

(** The three unquoted passes behind them: every unquoted occurrence is
    replaced, and the literal text stands. *)
Lemma bare_passes_pieces (ps : list Piece) (rom : QString) :
  tidy ps = true ->
  values_ok rom ps = true ->
  replace (bare BASENAME_KW) (params rom BASENAME)
    (replace (bare ROM_RAW) (params rom PATH)
       (replace (bare ROM) (params rom PATH) (partially (doneAt 3) rom ps)))
  = substituted rom ps.
Proof.
  intros Ht Hv.
  assert (forall j k, j = passIndex BareForm k ->
            replace (bare (keywordName k)) (params rom (keywordParam k))
              (partially (doneAt j) rom ps)
            = partially (doneAt (S j)) rom ps) as Hbare.
  { intros j k ->.
    apply (@pass_bare_pieces rom (doneAt (passIndex BareForm k))
             (doneAt (S (passIndex BareForm k))) k);
      try assumption.
    - now destruct k; intros [].
    - now destruct k.
    - now destruct k; intros [].
    - now destruct k.
    - destruct k; intros [] E; try reflexivity; congruence.
    - apply values_ok_done; [destruct k; cbn [passIndex]; lia | exact Hv].
    - now apply tidy_no_keyword. }
  pose proof (Hbare 3 KwROM eq_refl) as P3.
  pose proof (Hbare 4 KwROM_RAW eq_refl) as P4.
  pose proof (Hbare 5 KwBASENAME eq_refl) as P5.
  cbn [keywordName keywordParam] in P3, P4, P5.
  rewrite <- (partially_all rom ps). now rewrite P3, P4, P5.
Qed.


Lemma substituted_app (rom : QString) (ps1 ps2 : list Piece) :
  substituted rom (ps1 ++ ps2) = substituted rom ps1 ++ substituted rom ps2.
Proof. unfold substituted. apply flat_map_app. Qed.


(** ** The runner: what the slots write *)

(** The slots write their own lines only. *)
Lemma deliver_slot_lines (programOf : QString -> QString)
    (sig : QProcessSignal) (st : ProcessLauncher) :
  forallb isSlotLine (fst (deliver programOf sig st)) = true.
Proof.
  destruct st as [[q|]], sig as [pid | [] | code []]; reflexivity.
Qed.

Lemma deliverAll_slot_lines (programOf : QString -> QString)
    (sigs : list QProcessSignal) : forall st : ProcessLauncher,
  forallb isSlotLine (fst (deliverAll programOf sigs st)) = true.
Proof.
  induction sigs as [|sig sigs IH]; intros st; [reflexivity|].
  cbn [deliverAll]. unfold bind.
  pose proof (deliver_slot_lines programOf sig st) as Hd.
  destruct (deliver programOf sig st) as [tr [ab | [[] st']]]; [exact Hd|].
  specialize (IH st').
  destruct (deliverAll programOf sigs st') as [tr' r]. cbn [fst] in *.
  rewrite forallb_app, Hd, IH. reflexivity.
Qed.

Lemma runProcess_slot_lines (programOf : QString -> QString)
    (sigs : list QProcessSignal) (cmd : QString) (st : ProcessLauncher) :
  forallb isSlotLine (fst (runProcess programOf sigs cmd st)) = true.
Proof.
  destruct st as [[q|]]; [reflexivity|].
  rewrite runProcess_unfold.
  pose proof (deliverAll_slot_lines programOf sigs
                (mkLauncher (Some (mkQProcess cmd 0 false false)))) as H.
  destruct (deliverAll programOf sigs _) as [tr [ab | [[] st']]]; exact H.
Qed.

(** Each signal of the QProcess gives one line at most. *)
Lemma deliver_length (programOf : QString -> QString)
    (sig : QProcessSignal) (st : ProcessLauncher) :
  List.length (fst (deliver programOf sig st)) <= 1.
Proof.
  destruct st as [[q|]], sig as [pid | [] | code []]; cbn; lia.
Qed.

Lemma deliverAll_length (programOf : QString -> QString)
    (sigs : list QProcessSignal) : forall st : ProcessLauncher,
  List.length (fst (deliverAll programOf sigs st)) <= List.length sigs.
Proof.
  induction sigs as [|sig sigs IH]; intros st; [cbn; lia|].
  cbn [deliverAll]. unfold bind.
  pose proof (deliver_length programOf sig st) as Hd.
  destruct (deliver programOf sig st) as [tr [ab | [[] st']]];
    cbn [fst List.length] in *; [lia|].
  specialize (IH st').
  destruct (deliverAll programOf sigs st') as [tr' r]. cbn [fst] in *.
  rewrite length_app. lia.
Qed.

Lemma runProcess_length (programOf : QString -> QString)
    (sigs : list QProcessSignal) (cmd : QString) (st : ProcessLauncher) :
  List.length (fst (runProcess programOf sigs cmd st)) <= List.length sigs.
Proof.
  destruct st as [[q|]]; [cbn; lia|].
  rewrite runProcess_unfold.
  pose proof (deliverAll_length programOf sigs
                (mkLauncher (Some (mkQProcess cmd 0 false false)))) as H.
  destruct (deliverAll programOf sigs _) as [tr [ab | [[] st']]]; exact H.
Qed.

(** ** The claims *)

(** [C1] When the process ends with crash status, the finished slot writes
    the crash line with the exit code and then, the case having no [break],
    falls into the default branch and reaches [Q_UNREACHABLE] at line 137:
    it does not return, and a launch whose process crashes is aborted
    before [processFinished] is sent. *)
Theorem onProcessFinished_crash_aborts
    (programOf : QString -> QString) (exitcode pid : Z) (q : QProcess)
    (tmpl rom : QString) :
  onProcessFinished exitcode CrashExit (mkLauncher (Some q))
  = ([Log QtInfoMsg (CrashedOnExit exitcode)], inl (UnreachableReached 137))
  /\ launchGame programOf
       [started pid; errorOccurred Crashed; finished exitcode CrashExit]
       tmpl rom ProcessLauncher_new
     = (preamble tmpl rom
        ++ [ Log QtInfoMsg (ProcessStarted pid);
             Log QtWarningMsg
               (HasCrashed (programOf (createLaunchCommand tmpl rom)));
             Log QtInfoMsg (CrashedOnExit exitcode) ],
        inl (UnreachableReached 137)).
Proof.
  split; [reflexivity|].
  rewrite launchGame_unfold. unfold ProcessLauncher_new.
  rewrite runProcess_unfold. reflexivity.
Qed.

(** [C2] The example as the specification has it fails: for the command
    string [run] followed by the quoted [%ROM%] and the path /roms/a.rom
    the output is not [run] followed by a.rom in quotes; it holds no
    double quote at all. *)
Lemma run_quoted_ROM_keeps_no_quotes :
  createLaunchCommand run_quoted_ROM (qs "/roms/a.rom") <> run_quoted_expected
  /\ contains_char dquote
       (createLaunchCommand run_quoted_ROM (qs "/roms/a.rom")) = false.
Proof. split; [intros H; vm_compute in H; discriminate H | reflexivity]. Qed.

(** [C2], amended: for that command string and path the quoted keyword,
    its two quotes included, is replaced by the prepared path, which has
    no white space and so is not wrapped: the output is
    [run /roms/a.rom]. *)
Theorem run_quoted_ROM_output :
  createLaunchCommand run_quoted_ROM (qs "/roms/a.rom") = qs "run /roms/a.rom"
  /\ params (qs "/roms/a.rom") PATH = qs "/roms/a.rom"
  /\ replace (quoted ROM) (params (qs "/roms/a.rom") PATH) run_quoted_ROM
     = qs "run /roms/a.rom".
Proof. repeat split; reflexivity. Qed.

(** [C3] The prepared parameter is the sanitized value of the
    specification: every double quote is tripled first, and the result is
    wrapped in one pair of double quotes if and only if it then contains a
    white-space character (which it does exactly when the raw value does).
    A value without white space and without quotes passes unchanged. *)
Theorem prepareParam_is_sanitized (raw : QString) :
  prepareParam raw = sanitized_spec raw
  /\ prepareParam raw
     = (if containsWhitespace raw
        then dquote :: tripleQuotes raw ++ [dquote]
        else tripleQuotes raw)
  /\ (containsWhitespace raw = false -> contains_char dquote raw = false ->
      prepareParam raw = raw).
Proof.
  assert (prepareParam raw = sanitized_spec raw) as H1.
  { unfold prepareParam, sanitized_spec.
    rewrite replace_dquote_triples. reflexivity. }
  assert (sanitized_spec raw
          = (if containsWhitespace raw
             then dquote :: tripleQuotes raw ++ [dquote]
             else tripleQuotes raw)) as H2.
  { unfold sanitized_spec. fold (containsWhitespace (tripleQuotes raw)).
    rewrite tripleQuotes_whitespace. reflexivity. }
  repeat split.
  - exact H1.
  - now rewrite H1.
  - intros Hw Hq. rewrite H1, H2, Hw. now apply tripleQuotes_clean.
Qed.

Lemma prepareParam_is_sanitized_witness :
  prepareParam (qs "/roms/a.rom") = qs "/roms/a.rom".
Proof.
  apply (proj2 (proj2 (prepareParam_is_sanitized (qs "/roms/a.rom"))));
    reflexivity.
Defined.




(** [C5] As stated the claim fails.  The base name [R] of /roms/R.zip and
    the path hold no keyword, yet the command built from
    [%%BASENAME%OM%] is [%ROM%]; and for the path [%], which holds no
    keyword either, the command built from [%ROM%ROM%] is [%ROM%]. *)
Lemma keyword_left_over :
  (no_token_left (params (qs "/roms/R.zip") PATH) = true
   /\ no_token_left (params (qs "/roms/R.zip") BASENAME) = true
   /\ createLaunchCommand (qs "%%BASENAME%OM%") (qs "/roms/R.zip") = qs "%ROM%"
   /\ no_token_left
        (createLaunchCommand (qs "%%BASENAME%OM%") (qs "/roms/R.zip")) = false)
  /\ (no_token_left (params (qs "%") PATH) = true
      /\ no_token_left (params (qs "%") BASENAME) = true
      /\ createLaunchCommand (qs "%ROM%ROM%") (qs "%") = qs "%ROM%"
      /\ no_token_left (createLaunchCommand (qs "%ROM%ROM%") (qs "%")) = false).
Proof. repeat split; reflexivity. Qed.

(** [C5], amended: when the prepared path and the prepared base name have
    no [%] and are not pieces of a keyword's name, the built command holds
    no keyword, quoted or not. *)
Theorem no_keyword_left_over (tmpl rom : QString) :
  clean_value (params rom PATH) = true ->
  clean_value (params rom BASENAME) = true ->
  no_token_left (createLaunchCommand tmpl rom) = true.
Proof.
  unfold clean_value. intros Hp Hb.
  apply andb_true_iff in Hp as [Hp Hp3]. apply andb_true_iff in Hp as [Hp1 Hp2].
  apply andb_true_iff in Hb as [Hb Hb3]. apply andb_true_iff in Hb as [Hb1 Hb2].
  apply negb_true_iff in Hp1, Hp2, Hp3, Hb1, Hb2, Hb3.
  assert (occurs (params rom PATH) ROM = false) as Hp0.
  { apply (occurs_false_app_l _ ROM (qs "_RAW")). exact Hp2. }
  assert (occurs (params rom BASENAME) ROM = false) as Hb0.
  { apply (occurs_false_app_l _ ROM (qs "_RAW")). exact Hb2. }
  unfold createLaunchCommand.
  set (s3 := replace (quoted BASENAME_KW) _ _).
  set (s4 := replace (bare ROM) (params rom PATH) s3).
  set (s5 := replace (bare ROM_RAW) (params rom PATH) s4).
  assert (occurs (bare ROM) s4 = false) as H4.
  { apply (@no_leftover_after_pass (ROM ++ [percent]) _ Hp1 ROM eq_refl Hp0
             (List.length s3) s3 (le_n _)).
    now left. }
  assert (occurs (bare ROM) s5 = false) as H5.
  { apply (@no_leftover_after_pass (ROM_RAW ++ [percent]) _ Hp1 ROM eq_refl Hp0
             (List.length s4) s4 (le_n _)).
    now right. }
  assert (occurs (bare ROM_RAW) s5 = false) as H5'.
  { apply (@no_leftover_after_pass (ROM_RAW ++ [percent]) _ Hp1 ROM_RAW eq_refl
             Hp2 (List.length s4) s4 (le_n _)).
    now left. }
  assert (occurs (bare ROM)
            (replace (bare BASENAME_KW) (params rom BASENAME) s5) = false) as H6.
  { apply (@no_leftover_after_pass (BASENAME_KW ++ [percent]) _ Hb1 ROM eq_refl
             Hb0 (List.length s5) s5 (le_n _)).
    now right. }
  assert (occurs (bare ROM_RAW)
            (replace (bare BASENAME_KW) (params rom BASENAME) s5) = false) as H6'.
  { apply (@no_leftover_after_pass (BASENAME_KW ++ [percent]) _ Hb1 ROM_RAW
             eq_refl Hb2 (List.length s5) s5 (le_n _)).
    now right. }
  assert (occurs (bare BASENAME_KW)
            (replace (bare BASENAME_KW) (params rom BASENAME) s5) = false)
    as H6''.
  { apply (@no_leftover_after_pass (BASENAME_KW ++ [percent]) _ Hb1 BASENAME_KW
             eq_refl Hb3 (List.length s5) s5 (le_n _)).
    now left. }
  unfold no_token_left, forms, keywords. cbn [forallb token keywordName].
  rewrite (quoted_gone _ _ H6), (quoted_gone _ _ H6'), (quoted_gone _ _ H6'').
  rewrite H6, H6', H6''. reflexivity.
Qed.

Lemma no_keyword_left_over_witness :
  no_token_left
    (createLaunchCommand (qs "emu %%BASENAME%OM% %ROM%ROM%")
       (qs "/roms/Rom.zip")) = true.
Proof.
  apply (no_keyword_left_over (qs "emu %%BASENAME%OM% %ROM%ROM%")
           (qs "/roms/Rom.zip")); reflexivity.
Defined.

(** [C6] The base name is the file name without the directory and without
    the last extension only: the three examples; a file name gives the
    same base name with a directory in front of it as without; everything
    before the last dot is kept; a name without dot is kept whole. *)
Theorem completeBaseName_strips (dir name : QString) :
  completeBaseName (qs "/a/b/game.zip") = qs "game"
  /\ completeBaseName (qs "game.tar.gz") = qs "game.tar"
  /\ completeBaseName (qs "game") = qs "game"
  /\ (contains_char slash name = false ->
      completeBaseName (dir ++ slash :: name) = completeBaseName name
      /\ (forall base ext, name = base ++ dot :: ext ->
            contains_char dot ext = false ->
            completeBaseName name = base)
      /\ (contains_char dot name = false -> completeBaseName name = name)).
Proof.
  repeat split; try reflexivity; unfold completeBaseName.
  - now rewrite fileName_dir, fileName_bare.
  - intros base ext -> Hext. rewrite fileName_bare by assumption.
    now apply upToLastDot_ext.
  - intros Hdot. rewrite fileName_bare by assumption.
    now apply upToLastDot_none.
Qed.

Lemma completeBaseName_strips_witness :
  completeBaseName (qs "/games/snes" ++ slash :: qs "foo.tar.gz")
  = completeBaseName (qs "foo.tar.gz")
  /\ completeBaseName (qs "foo.tar.gz") = qs "foo.tar".
Proof.
  destruct (proj2 (proj2 (proj2
              (completeBaseName_strips (qs "/games/snes") (qs "foo.tar.gz"))))
              eq_refl) as [Hdir [Hext _]].
  split; [exact Hdir|].
  apply (Hext (qs "foo.tar") (qs "gz")); reflexivity.
Defined.

(** [C7] A launch whose process starts and exits normally, from a launcher
    that owns no process.  When the process ends within the 30 seconds of
    [waitForFinished()], the trace is the preamble, the started line with
    the process id, the finished line with the exit code, and the signal
    [processFinished]: one started, no failed, one finished, then one
    done.  When it runs for 30 seconds or longer, the wait of line 82
    returns before the process has finished: the QProcess is asked to
    terminate and [processFinished] is sent, and there is no finished
    notification in front of the done. *)
Theorem launchGame_wait_limit
    (programOf : QString -> QString) (tmpl rom : QString)
    (pid runtime exitcode : Z) (st : ProcessLauncher) :
  process st = None ->
  ((runtime < 30000)%Z ->
   launchGame programOf
     (signalsDuringWait (RunsFor pid runtime exitcode NormalExit)) tmpl rom st
   = (preamble tmpl rom
      ++ [ Log QtInfoMsg (ProcessStarted pid);
           Log QtInfoMsg (FinishedCleanly exitcode);
           processFinished ],
      inr (tt, mkLauncher
                 (Some (mkQProcess (createLaunchCommand tmpl rom) pid
                          true true))))
   /\ notifications
        (fst (launchGame programOf
                (signalsDuringWait (RunsFor pid runtime exitcode NormalExit))
                tmpl rom st))
      = [NStarted pid; NFinished exitcode NormalExit; NDone])
  /\ ((30000 <= runtime)%Z ->
      launchGame programOf
        (signalsDuringWait (RunsFor pid runtime exitcode NormalExit))
        tmpl rom st
      = (preamble tmpl rom
         ++ [Log QtInfoMsg (ProcessStarted pid); processFinished],
         inr (tt, mkLauncher
                    (Some (mkQProcess (createLaunchCommand tmpl rom) pid
                             true true))))
      /\ notifications
           (fst (launchGame programOf
                   (signalsDuringWait (RunsFor pid runtime exitcode NormalExit))
                   tmpl rom st))
         = [NStarted pid; NDone]).
Proof.
  destruct st as [[q|]]; cbn [process]; intros H; [discriminate|].
  unfold signalsDuringWait, waitForFinished_msecs. split; intros Hr.
  - apply Z.ltb_lt in Hr. rewrite Hr.
    rewrite launchGame_unfold, runProcess_unfold. split; reflexivity.
  - apply Z.ltb_ge in Hr. rewrite Hr.
    rewrite launchGame_unfold, runProcess_unfold. split; reflexivity.
Qed.

Lemma launchGame_wait_limit_witness :
  notifications
    (fst (launchGame (fun c => c)
            (signalsDuringWait (RunsFor 4242 60000 0 NormalExit))
            (qs "emu %ROM%") (qs "/roms/a.rom") ProcessLauncher_new))
  = [NStarted 4242; NDone]
  /\ notifications
       (fst (launchGame (fun c => c)
               (signalsDuringWait (RunsFor 4242 1500 0 NormalExit))
               (qs "emu %ROM%") (qs "/roms/a.rom") ProcessLauncher_new))
     = [NStarted 4242; NFinished 0 NormalExit; NDone].
Proof.
  split.
  - apply (proj2 (launchGame_wait_limit (fun c => c) (qs "emu %ROM%")
                    (qs "/roms/a.rom") 4242 60000 0 ProcessLauncher_new
                    eq_refl)).
    lia.
  - apply (proj1 (launchGame_wait_limit (fun c => c) (qs "emu %ROM%")
                    (qs "/roms/a.rom") 4242 1500 0 ProcessLauncher_new
                    eq_refl)).
    lia.
Defined.

(** [C8] A launch whose process fails to start, from a launcher that owns
    no process: no started line, one warning for FailedToStart, no finished
    line, then [processFinished].  And whatever the QProcess signals, when
    [runProcess] returns, [launchGame] sends [processFinished] after it,
    exactly once. *)
Theorem launchGame_spawn_failure_events
    (programOf : QString -> QString) (tmpl rom : QString) :
  (forall st, process st = None ->
     launchGame programOf [errorOccurred FailedToStart] tmpl rom st
     = (preamble tmpl rom
        ++ [ Log QtWarningMsg
               (CouldNotRun (programOf (createLaunchCommand tmpl rom)));
             processFinished ],
        inr (tt, mkLauncher
                   (Some (mkQProcess (createLaunchCommand tmpl rom) 0 true true))))
     /\ notifications
          (fst (launchGame programOf [errorOccurred FailedToStart] tmpl rom st))
        = [NFailed FailedToStart; NDone])
  /\ (forall sigs st tr st',
        runProcess programOf sigs (createLaunchCommand tmpl rom) st
        = (tr, inr (tt, st')) ->
        launchGame programOf sigs tmpl rom st
        = (preamble tmpl rom ++ tr ++ [processFinished], inr (tt, st'))
        /\ countDone (fst (launchGame programOf sigs tmpl rom st)) = 1).
Proof.
  split.
  - intros [[q|]]; cbn [process]; intros H; [discriminate|].
    rewrite launchGame_unfold, runProcess_unfold. split; reflexivity.
  - intros sigs st tr st' H.
    pose proof (runProcess_logs programOf sigs (createLaunchCommand tmpl rom) st)
      as Hl.
    rewrite launchGame_unfold, H. rewrite H in Hl. cbn [fst] in *.
    split; [reflexivity|].
    rewrite !countDone_app, (countDone_logs _ Hl). reflexivity.
Qed.

Lemma launchGame_spawn_failure_events_witness :
  notifications
    (fst (launchGame (fun c => c) [errorOccurred FailedToStart]
            (qs "no-such-program %ROM%") (qs "/roms/a.rom") ProcessLauncher_new))
  = [NFailed FailedToStart; NDone]
  /\ countDone
       (fst (launchGame (fun c => c) [started 7; finished 3 NormalExit]
               (qs "emu %ROM%") (qs "/roms/a.rom") ProcessLauncher_new))
     = 1.
Proof.
  split.
  - apply (proj1 (launchGame_spawn_failure_events (fun c => c)
                    (qs "no-such-program %ROM%") (qs "/roms/a.rom"))).
    reflexivity.
  - eapply (proj2 (launchGame_spawn_failure_events (fun c => c)
                     (qs "emu %ROM%") (qs "/roms/a.rom"))).
    reflexivity.
Defined.

(** [C9] The two programming errors stop the program at once: [runProcess]
    on a launcher that still owns a process fails the assertion of line 69
    before anything is logged, and the failed slot reaches the
    [Q_UNREACHABLE] of line 115 on ReadError and on WriteError.  From a
    launcher that owns no process, and with no pipe error among the
    signals, [runProcess] never stops at either place. *)
Theorem programming_errors_abort (programOf : QString -> QString) :
  (forall sigs cmd st q, process st = Some q ->
     runProcess programOf sigs cmd st = ([], inl (AssertFailed 69)))
  /\ (forall error st q, process st = Some q ->
        isPipeError (errorOccurred error) = true ->
        onProcessFailed programOf error st = ([], inl (UnreachableReached 115)))
  /\ (forall sigs cmd st, process st = None ->
        existsb isPipeError sigs = false ->
        forall tr ab, runProcess programOf sigs cmd st = (tr, inl ab) ->
        ab <> AssertFailed 69 /\ ab <> UnreachableReached 115).
Proof.
  split; [|split].
  - intros sigs cmd [[q'|]] q H; [reflexivity | discriminate].
  - intros error [[q'|]] q H He; [|discriminate].
    destruct error; try discriminate He; reflexivity.
  - intros sigs cmd [[q|]] Hnone Hpipe tr ab Hrun; [discriminate|].
    rewrite runProcess_unfold in Hrun.
    pose proof (deliverAll_owned programOf sigs
                  (mkQProcess cmd 0 false false) Hpipe) as Hd.
    destruct (deliverAll programOf sigs _) as [tr' [ab' | [[] st']]];
      [|discriminate].
    injection Hrun as _ <-. subst ab'. split; discriminate.
Qed.

Lemma programming_errors_abort_witness :
  runProcess (fun c => c) [started 7] (qs "emu")
    (mkLauncher (Some (mkQProcess (qs "emu") 6 true true)))
  = ([], inl (AssertFailed 69))
  /\ onProcessFailed (fun c => c) ReadError
       (mkLauncher (Some (mkQProcess (qs "emu") 6 false false)))
     = ([], inl (UnreachableReached 115))
  /\ (UnreachableReached 137 <> AssertFailed 69
      /\ UnreachableReached 137 <> UnreachableReached 115).
Proof.
  split; [|split].
  - apply (proj1 (programming_errors_abort (fun c => c)) [started 7] (qs "emu")
             (mkLauncher (Some (mkQProcess (qs "emu") 6 true true)))
             (mkQProcess (qs "emu") 6 true true)).
    reflexivity.
  - apply (proj1 (proj2 (programming_errors_abort (fun c => c))) ReadError
             (mkLauncher (Some (mkQProcess (qs "emu") 6 false false)))
             (mkQProcess (qs "emu") 6 false false)); reflexivity.
  - apply (proj2 (proj2 (programming_errors_abort (fun c => c)))
             [started 7; errorOccurred Crashed; finished 11 CrashExit]
             (qs "emu") ProcessLauncher_new eq_refl eq_refl
             [Log QtInfoMsg (ProcessStarted 7);
              Log QtWarningMsg (HasCrashed (qs "emu"));
              Log QtInfoMsg (CrashedOnExit 11)]).
    reflexivity.
Defined.

(** [C10] As stated the claim fails, in four ways.  In
    [%BASENAME%ROM%BASENAME%] the earlier pass for [%ROM%] takes the
    closing [%] of the first occurrence of [%BASENAME%] and the opening
    [%] of the second, and neither is replaced: the pieces are not tidy.
    In [%ROM%NAME% %ROM%NAME%] with the path [%BASE], and in
    [%BASEN%ROM%ME% %BASEN%ROM%ME%] with the path [A], the pieces are tidy
    and both occurrences of [%ROM%] are replaced by the path, but the
    path, with its [%] in the one and as a piece of a name in the other,
    forms [%BASENAME%] with the text around it, which the last pass
    replaces in turn.  In the quoted [%BASENAME%], [%ROM%], quoted
    [%BASENAME%] written without space, the pass for the quoted [%ROM%]
    takes a quote of each neighbour, and the quotes of the two other
    occurrences stay. *)
Lemma occurrences_not_replaced :
  (join (token BareForm KwBASENAME) [[]; qs "ROM"; []]
   = qs "%BASENAME%ROM%BASENAME%"
   /\ forallb no_token_left [[]; qs "ROM"; []] = true
   /\ createLaunchCommand (qs "%BASENAME%ROM%BASENAME%") (qs "/roms/x.zip")
      = qs "%BASENAME/roms/x.zipBASENAME%"
   /\ createLaunchCommand (qs "%BASENAME%ROM%BASENAME%") (qs "/roms/x.zip")
      <> join (params (qs "/roms/x.zip") (keywordParam KwBASENAME))
           [[]; qs "ROM"; []]
   /\ tidy (Tok BareForm KwBASENAME :: lits (qs "ROM")
            ++ [Tok BareForm KwBASENAME]) = false
   /\ values_ok (qs "/roms/x.zip")
        (Tok BareForm KwBASENAME :: lits (qs "ROM")
         ++ [Tok BareForm KwBASENAME]) = true)
  /\ (render (Tok BareForm KwROM :: lits (qs "NAME% ")
              ++ Tok BareForm KwROM :: lits (qs "NAME%"))
      = qs "%ROM%NAME% %ROM%NAME%"
      /\ tidy (Tok BareForm KwROM :: lits (qs "NAME% ")
               ++ Tok BareForm KwROM :: lits (qs "NAME%")) = true
      /\ contains_char percent (params (qs "%BASE") PATH) = true
      /\ no_token_left (params (qs "%BASE") PATH) = true
      /\ createLaunchCommand (qs "%ROM%NAME% %ROM%NAME%") (qs "%BASE")
         = qs "%BASE %BASE"
      /\ substituted (qs "%BASE")
           (Tok BareForm KwROM :: lits (qs "NAME% ")
            ++ Tok BareForm KwROM :: lits (qs "NAME%"))
         = qs "%BASENAME% %BASENAME%")
  /\ (render (lits (qs "%BASEN") ++ Tok BareForm KwROM :: lits (qs "ME% %BASEN")
              ++ Tok BareForm KwROM :: lits (qs "ME%"))
      = qs "%BASEN%ROM%ME% %BASEN%ROM%ME%"
      /\ tidy (lits (qs "%BASEN") ++ Tok BareForm KwROM :: lits (qs "ME% %BASEN")
               ++ Tok BareForm KwROM :: lits (qs "ME%")) = true
      /\ contains_char percent (params (qs "A") PATH) = false
      /\ occurs (params (qs "A") PATH) BASENAME_KW = true
      /\ createLaunchCommand (qs "%BASEN%ROM%ME% %BASEN%ROM%ME%") (qs "A")
         = qs "A A"
      /\ substituted (qs "A")
           (lits (qs "%BASEN") ++ Tok BareForm KwROM :: lits (qs "ME% %BASEN")
            ++ Tok BareForm KwROM :: lits (qs "ME%"))
         = qs "%BASENAME% %BASENAME%")
  /\ (render [Tok QuotedForm KwBASENAME; Tok BareForm KwROM;
              Tok QuotedForm KwBASENAME]
      = quoted BASENAME_KW ++ qs "%ROM%" ++ quoted BASENAME_KW
      /\ tidy [Tok QuotedForm KwBASENAME; Tok BareForm KwROM;
               Tok QuotedForm KwBASENAME] = false
      /\ values_ok (qs "/roms/x.zip")
           [Tok QuotedForm KwBASENAME; Tok BareForm KwROM;
            Tok QuotedForm KwBASENAME] = true
      /\ createLaunchCommand
           (quoted BASENAME_KW ++ qs "%ROM%" ++ quoted BASENAME_KW)
           (qs "/roms/x.zip")
         = dquote :: qs "x/roms/x.zipx" ++ [dquote]
      /\ substituted (qs "/roms/x.zip")
           [Tok QuotedForm KwBASENAME; Tok BareForm KwROM;
            Tok QuotedForm KwBASENAME]
         = qs "x/roms/x.zipx").
Proof.
  repeat split; try reflexivity.
  intros H. vm_compute in H. discriminate H.
Qed.

(** [C10], amended: substitution replaces every occurrence, not only the
    first, for every command string read as literal text and occurrences
    of keywords (any number of them, of any of the three keywords, quoted
    or not) that is tidy (the literal text, with the [%] of the
    occurrences around it, forms no further keyword, and no unquoted
    occurrence stands directly between two double quotes) and every path
    that gives clean parameters to the keywords that occur (no [%] in
    them, and none of them a piece of a keyword's name; the parameter of
    the unquoted [%BASENAME%], replaced last, may be any value): every
    occurrence becomes the prepared parameter of its keyword, the same for
    all occurrences of a keyword, and the literal text stays. *)
Theorem every_occurrence_replaced (ps : list Piece) (rom : QString) :
  tidy ps = true ->
  values_ok rom ps = true ->
  createLaunchCommand (render ps) rom = substituted rom ps
  /\ forall f k, In (Tok f k) ps ->
       occurs (params rom (keywordParam k)) (createLaunchCommand (render ps) rom)
       = true.
Proof.
  intros Ht Hv.
  assert (createLaunchCommand (render ps) rom = substituted rom ps) as E.
  { unfold createLaunchCommand.
    rewrite (quoted_passes_pieces ps rom Ht Hv).
    exact (bare_passes_pieces ps rom Ht Hv). }
  split; [exact E|].
  intros f k Hin. rewrite E.
  apply in_split in Hin as [ps1 [ps2 ->]].
  rewrite substituted_app.
  change (substituted rom (Tok f k :: ps2))
    with (params rom (keywordParam k) ++ substituted rom ps2).
  apply occurs_at. apply startsWith_app.
Qed.

Lemma every_occurrence_replaced_witness :
  createLaunchCommand
    (qs "emu %ROM% -n %BASENAME% --volume 100% " ++ quoted ROM ++ qs " %ROM%")
    (qs "/roms/Super Game!.rom")
  = qs "emu " ++ params (qs "/roms/Super Game!.rom") PATH
    ++ qs " -n " ++ params (qs "/roms/Super Game!.rom") BASENAME
    ++ qs " --volume 100% " ++ params (qs "/roms/Super Game!.rom") PATH
    ++ qs " " ++ params (qs "/roms/Super Game!.rom") PATH.
Proof.
  apply (proj1 (every_occurrence_replaced
                  (lits (qs "emu ") ++ [Tok BareForm KwROM]
                   ++ lits (qs " -n ") ++ [Tok BareForm KwBASENAME]
                   ++ lits (qs " --volume 100% ") ++ [Tok QuotedForm KwROM]
                   ++ lits (qs " ") ++ [Tok BareForm KwROM])
                  (qs "/roms/Super Game!.rom") eq_refl eq_refl)).
Defined.

(** ** Further properties of the command builder *)

(** Without an occurrence a pass changes nothing. *)
Lemma replace_no_occurrence (b0 : QChar) (bs v s : QString) :
  occurs (b0 :: bs) s = false -> replace (b0 :: bs) v s = s.
Proof.
  induction s as [|c s IH]; intros H; [reflexivity|].
  rewrite occurs_cons in H. apply orb_false_iff in H as [Hs H].
  rewrite replace_nomatch by exact Hs. now rewrite IH.
Qed.

(** A command string that holds no keyword is returned as it is, whatever
    the path. *)
Theorem createLaunchCommand_no_keyword (tmpl rom : QString) :
  no_token_left tmpl = true ->
  createLaunchCommand tmpl rom = tmpl.
Proof.
  unfold no_token_left, forms, keywords. cbn [forallb token keywordName].
  rewrite !andb_true_r. intros H.
  apply andb_true_iff in H as [Hq Hb].
  apply andb_true_iff in Hq as [Hq1 Hq]. apply andb_true_iff in Hq as [Hq2 Hq3].
  apply andb_true_iff in Hb as [Hb1 Hb]. apply andb_true_iff in Hb as [Hb2 Hb3].
  apply negb_true_iff in Hq1, Hq2, Hq3, Hb1, Hb2, Hb3.
  unfold createLaunchCommand.
  rewrite (replace_no_occurrence dquote (bare ROM ++ [dquote]) _ tmpl Hq1).
  rewrite (replace_no_occurrence dquote (bare ROM_RAW ++ [dquote]) _ tmpl Hq2).
  rewrite (replace_no_occurrence dquote (bare BASENAME_KW ++ [dquote]) _ tmpl Hq3).
  rewrite (replace_no_occurrence percent (ROM ++ [percent]) _ tmpl Hb1).
  rewrite (replace_no_occurrence percent (ROM_RAW ++ [percent]) _ tmpl Hb2).
  exact (replace_no_occurrence percent (BASENAME_KW ++ [percent]) _ tmpl Hb3).
Qed.

Lemma createLaunchCommand_no_keyword_witness :
  createLaunchCommand (qs "emulator --fullscreen 100% %ROM") (qs "/roms/a b.rom")
  = qs "emulator --fullscreen 100% %ROM".
Proof.
  apply (createLaunchCommand_no_keyword (qs "emulator --fullscreen 100% %ROM")
           (qs "/roms/a b.rom")).
  reflexivity.
Defined.

(** Whether [p] stands at the front of [s ++ t] is decided within [s] when
    the last character of [p] does not occur in [t]. *)
Lemma startsWith_app_r (c : QChar) (p0 t : QString) :
  contains_char c t = false ->
  forall s, startsWith (p0 ++ [c]) (s ++ t) = startsWith (p0 ++ [c]) s.
Proof.
  intros Ht. induction p0 as [|a p0 IH]; intros s.
  - destruct s as [|x s]; [|reflexivity].
    cbn [app]. destruct t as [|y t]; [reflexivity|].
    apply contains_char_cons_false in Ht as [Hy _].
    rewrite startsWith_cons, Hy. reflexivity.
  - destruct s as [|x s]; cbn [app].
    + apply startsWith_missing_char with (c := c); [|exact Ht].
      right. apply in_or_app. right. now left.
    + rewrite !startsWith_cons. now rewrite IH.
Qed.

(** A pass leaves alone a tail that lacks the last character of [before],
    and treats what stands in front of that tail as if it stood alone. *)
Lemma replace_app_clean_r (b0 c : QChar) (bs p0 v t : QString) :
  b0 :: bs = p0 ++ [c] ->
  contains_char c t = false ->
  forall (k : nat) (s : QString), List.length s <= k ->
  replace (b0 :: bs) v (s ++ t) = replace (b0 :: bs) v s ++ t.
Proof.
  intros Hp Ht. induction k as [|k IH]; intros s Hk.
  - destruct s; [|cbn [List.length] in Hk; lia].
    cbn [app]. apply replace_missing_char with (c := c); [|exact Ht].
    rewrite Hp. apply in_or_app. right. now left.
  - destruct s as [|x s].
    + cbn [app]. apply replace_missing_char with (c := c); [|exact Ht].
      rewrite Hp. apply in_or_app. right. now left.
    + cbn [List.length] in Hk.
      destruct (replace_cons_cases b0 bs v x s) as [[r [Hr Hrep]] | [Hno Hrep]];
        rewrite Hrep.
      * rewrite Hr, <- !app_assoc, replace_match. f_equal. apply IH.
        apply (f_equal (@List.length QChar)) in Hr.
        cbn [List.length app] in Hr. rewrite length_app in Hr.
        cbn [List.length] in Hr. lia.
      * cbn [app]. rewrite replace_nomatch.
        -- f_equal. apply IH. lia.
        -- change (x :: s ++ t) with ((x :: s) ++ t).
           rewrite Hp, startsWith_app_r by exact Ht. now rewrite <- Hp.
Qed.

(** Text without [%] and without double quote at the two ends of the
    command string is copied, and what stands between is built as if it
    stood alone. *)
Theorem createLaunchCommand_literal_ends (pre tmpl post rom : QString) :
  contains_char percent pre = false -> contains_char dquote pre = false ->
  contains_char percent post = false -> contains_char dquote post = false ->
  createLaunchCommand (pre ++ tmpl ++ post) rom
  = pre ++ createLaunchCommand tmpl rom ++ post.
Proof.
  intros Hp1 Hq1 Hp2 Hq2.
  assert (forall n v s,
             replace (quoted n) v (pre ++ s ++ post)
             = pre ++ replace (quoted n) v s ++ post) as Hquoted.
  { intros n v s. unfold quoted at 1. rewrite replace_skip_clean by exact Hq1.
    fold (quoted n). f_equal.
    apply (@replace_app_clean_r dquote dquote (bare n ++ [dquote])
             (dquote :: bare n) v post eq_refl Hq2 (List.length s) s (le_n _)). }
  assert (forall n v s,
             replace (bare n) v (pre ++ s ++ post)
             = pre ++ replace (bare n) v s ++ post) as Hbare.
  { intros n v s. unfold bare at 1. rewrite replace_skip_clean by exact Hp1.
    fold (bare n). f_equal.
    apply (@replace_app_clean_r percent percent (n ++ [percent])
             (percent :: n) v post eq_refl Hp2 (List.length s) s (le_n _)). }
  unfold createLaunchCommand.
  now rewrite !Hquoted, !Hbare.
Qed.

Lemma createLaunchCommand_literal_ends_witness :
  createLaunchCommand
    (qs "emu -v " ++ (quoted ROM ++ qs " %BASENAME%") ++ qs " --exit")
    (qs "/roms/a b.rom")
  = qs "emu -v "
    ++ createLaunchCommand (quoted ROM ++ qs " %BASENAME%") (qs "/roms/a b.rom")
    ++ qs " --exit".
Proof.
  apply (createLaunchCommand_literal_ends (qs "emu -v ")
           (quoted ROM ++ qs " %BASENAME%") (qs " --exit") (qs "/roms/a b.rom"));
    reflexivity.
Defined.

(** *** The prepared parameter *)

Lemma prepareParam_cases (s : QString) :
  prepareParam s
  = if containsWhitespace s
    then dquote :: tripleQuotes s ++ [dquote]
    else tripleQuotes s.
Proof.
  unfold prepareParam.
  now rewrite replace_dquote_triples, tripleQuotes_whitespace.
Qed.

Lemma tripleQuotes_injective (a : QString) : forall b : QString,
  tripleQuotes a = tripleQuotes b -> a = b.
Proof.
  induction a as [|x a IH]; intros [|y b] H.
  - reflexivity.
  - cbn [tripleQuotes flat_map] in H.
    destruct (Ascii.eqb y dquote); discriminate H.
  - cbn [tripleQuotes flat_map] in H.
    destruct (Ascii.eqb x dquote); discriminate H.
  - cbn [tripleQuotes flat_map] in H.
    fold (tripleQuotes a) in H. fold (tripleQuotes b) in H.
    destruct (Ascii.eqb x dquote) eqn:Ex, (Ascii.eqb y dquote) eqn:Ey;
      cbn [app] in H.
    + apply Ascii.eqb_eq in Ex, Ey. subst x y.
      injection H as H. f_equal. now apply IH.
    + injection H as Hy _. subst y. rewrite Ascii.eqb_refl in Ey. discriminate.
    + injection H as Hx _. subst x. rewrite Ascii.eqb_refl in Ex. discriminate.
    + injection H as -> H. f_equal. now apply IH.
Qed.

Lemma containsWhitespace_wrapped (t : QString) :
  containsWhitespace (dquote :: t ++ [dquote]) = containsWhitespace t.
Proof.
  unfold containsWhitespace. cbn [existsb].
  rewrite existsb_app. cbn [existsb].
  change (isSpace dquote) with false. now rewrite !orb_false_r.
Qed.

(** Two raw values never prepare to the same parameter. *)
Theorem prepareParam_injective (a b : QString) :
  prepareParam a = prepareParam b -> a = b.
Proof.
  intros H.
  assert (containsWhitespace a = containsWhitespace b) as Hws.
  { apply (f_equal containsWhitespace) in H.
    rewrite !prepareParam_cases in H.
    destruct (containsWhitespace a) eqn:Ea, (containsWhitespace b) eqn:Eb;
      try reflexivity;
      rewrite ?containsWhitespace_wrapped, ?tripleQuotes_whitespace in H;
      congruence. }
  rewrite !prepareParam_cases, Hws in H.
  destruct (containsWhitespace b).
  - injection H as H. apply app_inj_tail in H as [H _].
    now apply tripleQuotes_injective.
  - now apply tripleQuotes_injective.
Qed.

Lemma prepareParam_injective_witness : qs "/roms/a b.rom" = qs "/roms/a b.rom".
Proof.
  apply (prepareParam_injective (qs "/roms/a b.rom") (qs "/roms/a b.rom")).
  reflexivity.
Defined.

Lemma withoutQuotes_tripleQuotes (s : QString) :
  withoutQuotes (tripleQuotes s) = withoutQuotes s.
Proof.
  unfold withoutQuotes. induction s as [|x s IH]; [reflexivity|].
  cbn [tripleQuotes flat_map]. fold (tripleQuotes s).
  destruct (Ascii.eqb x dquote) eqn:E; cbn [app filter];
    rewrite ?Ascii.eqb_refl, ?E; cbn [negb].
  - exact IH.
  - f_equal. exact IH.
Qed.

(** Preparing a parameter adds double quotes and nothing else: the other
    characters stay, in their order, and none is added; and a prepared
    parameter with white space in it stands between two double quotes. *)
Theorem prepareParam_adds_quotes_only (s : QString) :
  withoutQuotes (prepareParam s) = withoutQuotes s
  /\ List.length s <= List.length (prepareParam s)
  /\ (containsWhitespace (prepareParam s) = true ->
      prepareParam s = dquote :: tripleQuotes s ++ [dquote]).
Proof.
  rewrite prepareParam_cases.
  assert (List.length s <= List.length (tripleQuotes s)) as Hlen.
  { induction s as [|x s IH]; [apply le_n|].
    cbn [tripleQuotes flat_map]. fold (tripleQuotes s).
    rewrite length_app. destruct (Ascii.eqb x dquote); cbn [List.length]; lia. }
  destruct (containsWhitespace s) eqn:E.
  - split; [|split].
    + unfold withoutQuotes. cbn [filter]. rewrite Ascii.eqb_refl. cbn [negb].
      rewrite filter_app. cbn [filter]. rewrite Ascii.eqb_refl. cbn [negb].
      rewrite app_nil_r. apply withoutQuotes_tripleQuotes.
    + cbn [List.length]. rewrite length_app. cbn [List.length]. lia.
    + reflexivity.
  - split; [|split].
    + apply withoutQuotes_tripleQuotes.
    + exact Hlen.
    + rewrite tripleQuotes_whitespace, E. discriminate.
Qed.

Lemma prepareParam_adds_quotes_only_witness :
  prepareParam (qs "Super Game!")
  = dquote :: tripleQuotes (qs "Super Game!") ++ [dquote].
Proof.
  apply (proj2 (proj2 (prepareParam_adds_quotes_only (qs "Super Game!")))).
  reflexivity.
Defined.

(** *** One keyword for another, one form for the other *)

(** A command string made of unquoted occurrences of one keyword, none in
    double quotes, with pieces without [%] of which none between two
    occurrences is the name of a keyword, and a path without [%]: every
    occurrence becomes the prepared parameter of the keyword. *)
Lemma createLaunchCommand_join_bare (k : Keyword)
    (gaps : list QString) (rom : QString) :
  gaps_ok BareForm gaps = true ->
  contains_char percent rom = false ->
  createLaunchCommand (join (bare (keywordName k)) gaps) rom
  = join (params rom (keywordParam k)) gaps.
Proof.
  intros Hok Hrom. unfold gaps_ok in Hok.
  apply andb_true_iff in Hok as [Hp Hok].
  apply andb_true_iff in Hok as [Henc Hint].
  pose proof (join_clean gaps (params rom PATH) Hp
                (params_no_percent rom PATH Hrom)) as Hvp.
  pose proof (join_clean gaps (params rom BASENAME) Hp
                (params_no_percent rom BASENAME Hrom)) as Hvb.
  pose proof (interior_not_keyword gaps KwROM Hint) as HiROM.
  pose proof (interior_not_keyword gaps KwROM_RAW Hint) as HiRAW.
  unfold createLaunchCommand.
  destruct k; cbn [keywordName keywordParam].
  - rewrite !(@pass_quoted_over_bare ROM); try (reflexivity || assumption).
    rewrite (pass_bare_same ROM) by assumption.
    repeat clean_pass. reflexivity.
  - rewrite !(@pass_quoted_over_bare ROM_RAW); try (reflexivity || assumption).
    rewrite (@pass_bare_other ROM_RAW ROM); try (reflexivity || assumption);
      [|discriminate].
    rewrite (pass_bare_same ROM_RAW) by assumption.
    repeat clean_pass. reflexivity.
  - rewrite !(@pass_quoted_over_bare BASENAME_KW);
      try (reflexivity || assumption).
    rewrite (@pass_bare_other BASENAME_KW ROM); try (reflexivity || assumption);
      [|discriminate].
    rewrite (@pass_bare_other BASENAME_KW ROM_RAW);
      try (reflexivity || assumption); [|discriminate].
    now rewrite (pass_bare_same BASENAME_KW) by assumption.
Qed.

(** [%ROM%] and [%ROM_RAW%] are one keyword under two names: a command
    string made of occurrences of one of them gives the same command when
    every occurrence is written as the other. *)
Theorem ROM_and_ROM_RAW_agree (f : Form) (gaps : list QString) (rom : QString) :
  gaps_ok f gaps = true ->
  contains_char percent rom = false ->
  createLaunchCommand (join (token f KwROM) gaps) rom
  = createLaunchCommand (join (token f KwROM_RAW) gaps) rom.
Proof.
  intros Hok Hrom. destruct f; cbn [token].
  - unfold gaps_ok in Hok. apply andb_true_iff in Hok as [Hp _].
    now rewrite !createLaunchCommand_join_quoted.
  - now rewrite !createLaunchCommand_join_bare.
Qed.

Lemma ROM_and_ROM_RAW_agree_witness :
  createLaunchCommand (qs "emu %ROM% --load %ROM%") (qs "/roms/a b.rom")
  = createLaunchCommand (qs "emu %ROM_RAW% --load %ROM_RAW%")
      (qs "/roms/a b.rom").
Proof.
  apply (ROM_and_ROM_RAW_agree BareForm [qs "emu "; qs " --load "; []]
           (qs "/roms/a b.rom"));
    reflexivity.
Defined.

(** Quotes written around a keyword in the command string make no
    difference: the quoted and the unquoted occurrences give the same
    command, with quotes exactly where the parameter needs them. *)
Theorem manual_quotes_make_no_difference (k : Keyword)
    (gaps : list QString) (rom : QString) :
  gaps_ok BareForm gaps = true ->
  contains_char percent rom = false ->
  createLaunchCommand (join (token QuotedForm k) gaps) rom
  = createLaunchCommand (join (token BareForm k) gaps) rom.
Proof.
  intros Hok Hrom. cbn [token].
  rewrite createLaunchCommand_join_bare by assumption.
  unfold gaps_ok in Hok. apply andb_true_iff in Hok as [Hp _].
  now rewrite createLaunchCommand_join_quoted.
Qed.

Lemma manual_quotes_make_no_difference_witness :
  createLaunchCommand (qs "emu " ++ quoted BASENAME_KW ++ qs " --fullscreen")
    (qs "/roms/Super Game!.rom")
  = createLaunchCommand (qs "emu %BASENAME% --fullscreen")
      (qs "/roms/Super Game!.rom").
Proof.
  apply (manual_quotes_make_no_difference KwBASENAME
           [qs "emu "; qs " --fullscreen"] (qs "/roms/Super Game!.rom"));
    reflexivity.
Defined.

(** ** Further properties of the runner *)

Lemma notifications_app (tr1 tr2 : list Event) :
  notifications (tr1 ++ tr2) = notifications tr1 ++ notifications tr2.
Proof.
  induction tr1 as [|e tr1 IH]; [reflexivity|].
  cbn [app notifications]. destruct (notification e); cbn [app]; now rewrite IH.
Qed.

Section RunFacts.

Variable programOf : QString -> QString.

(** One signal that is not fatal: its slot writes one line, the line that
    reports the signal, and returns; only [started] changes the process. *)
Lemma deliver_not_fatal (sig : QProcessSignal) (q : QProcess) :
  isFatal sig = false ->
  exists e, deliver programOf sig (mkLauncher (Some q))
            = ([e], inr (tt, launcherAfter q [sig]))
            /\ notification e = Some (signalNotification sig).
Proof.
  unfold launcherAfter. destruct q as [cmd pid t d].
  destruct sig as [p | [] | c []]; intros H; try discriminate H;
    eexists; (split; [reflexivity | reflexivity]).
Qed.

(** One fatal signal: its slot stops the program. *)
Lemma deliver_fatal (sig : QProcessSignal) (q : QProcess) :
  isFatal sig = true ->
  exists tr ab, deliver programOf sig (mkLauncher (Some q)) = (tr, inl ab)
                /\ firstAbort [sig] = Some ab.
Proof.
  destruct sig as [p | [] | c []]; intros H; try discriminate H;
    do 2 eexists; (split; reflexivity).
Qed.

Lemma firstAbort_cons (sig : QProcessSignal) (sigs : list QProcessSignal) :
  firstAbort (sig :: sigs)
  = if isFatal sig then firstAbort [sig] else firstAbort sigs.
Proof. unfold firstAbort. cbn [find]. now destruct (isFatal sig). Qed.

(** The result of the delivery of all signals. *)
Lemma deliverAll_result (sigs : list QProcessSignal) : forall q : QProcess,
  snd (deliverAll programOf sigs (mkLauncher (Some q)))
  = match firstAbort sigs with
    | Some ab => inl ab
    | None => inr (tt, launcherAfter q sigs)
    end.
Proof.
  induction sigs as [|sig sigs IH]; intros q.
  - unfold launcherAfter. destruct q. reflexivity.
  - rewrite firstAbort_cons. cbn [deliverAll]. unfold bind.
    destruct (isFatal sig) eqn:E.
    + destruct (deliver_fatal sig q E) as [tr [ab [-> ->]]]. reflexivity.
    + destruct (deliver_not_fatal sig q E) as [e [-> _]].
      specialize (IH (mkQProcess (command q) (lastPid (processId q) [sig])
                        (terminateCalled q) (deleteLaterCalled q))).
      unfold launcherAfter in *. cbn [command processId terminateCalled
                                deleteLaterCalled] in IH.
      destruct (deliverAll programOf sigs _) as [tr' r]. cbn [snd] in *.
      rewrite IH. reflexivity.
Qed.

(** The log of the delivery when no signal is fatal: one line for each
    signal, in their order. *)
Lemma deliverAll_trace (sigs : list QProcessSignal) : forall q : QProcess,
  existsb isFatal sigs = false ->
  notifications (fst (deliverAll programOf sigs (mkLauncher (Some q))))
  = map signalNotification sigs
  /\ List.length (fst (deliverAll programOf sigs (mkLauncher (Some q))))
     = List.length sigs.
Proof.
  induction sigs as [|sig sigs IH]; intros q H; [split; reflexivity|].
  cbn [existsb] in H. apply orb_false_iff in H as [E H].
  cbn [deliverAll]. unfold bind.
  destruct (deliver_not_fatal sig q E) as [e [-> He]].
  specialize (IH (mkQProcess (command q) (lastPid (processId q) [sig])
                    (terminateCalled q) (deleteLaterCalled q)) H).
  unfold launcherAfter.
  destruct (deliverAll programOf sigs _) as [tr' r]. cbn [fst] in *.
  destruct IH as [IH1 IH2]. split.
  - cbn [app notifications map]. rewrite He. now rewrite IH1.
  - cbn [app List.length]. now rewrite IH2.
Qed.

End RunFacts.

(** How [runProcess] ends, from a launcher that owns no process: it stops
    at the first pipe error (line 115) or crash exit (line 137) among the
    signals, and returns when there is none; the launcher then still
    holds the process, with the command, the process id of the last
    [started], asked to terminate and scheduled for deletion.  The
    assertions of the slots never fail. *)
Theorem runProcess_result
    (programOf : QString -> QString) (sigs : list QProcessSignal)
    (cmd : QString) :
  snd (runProcess programOf sigs cmd ProcessLauncher_new)
  = match firstAbort sigs with
    | Some ab => inl ab
    | None =>
        inr (tt, mkLauncher (Some (mkQProcess cmd (lastPid 0 sigs) true true)))
    end.
Proof.
  unfold ProcessLauncher_new. rewrite runProcess_unfold.
  pose proof (deliverAll_result programOf sigs (mkQProcess cmd 0 false false))
    as H.
  destruct (deliverAll programOf sigs _) as [tr [ab | [[] st']]];
    cbn [snd] in *; destruct (firstAbort sigs); try discriminate H.
  - exact H.
  - injection H as ->. reflexivity.
Qed.

(** What [runProcess] logs when no signal is fatal: every signal is
    reported by one line, in the order of the signals, the failures
    FailedToStart, Crashed, Timedout and UnknownError as warnings after
    which the run goes on. *)
Theorem runProcess_reports_every_signal
    (programOf : QString -> QString) (sigs : list QProcessSignal)
    (cmd : QString) :
  existsb isFatal sigs = false ->
  returned (runProcess programOf sigs cmd ProcessLauncher_new) = true
  /\ notifications (fst (runProcess programOf sigs cmd ProcessLauncher_new))
     = map signalNotification sigs
  /\ List.length (fst (runProcess programOf sigs cmd ProcessLauncher_new))
     = List.length sigs.
Proof.
  intros H. unfold ProcessLauncher_new, returned. rewrite runProcess_unfold.
  pose proof (deliverAll_result programOf sigs (mkQProcess cmd 0 false false))
    as Hr.
  pose proof (deliverAll_trace programOf sigs (mkQProcess cmd 0 false false) H)
    as [Ht Hl].
  assert (firstAbort sigs = None) as Hf.
  { unfold firstAbort. destruct (find isFatal sigs) as [sig|] eqn:E;
      [|reflexivity].
    apply find_some in E as [Hin Hs].
    assert (existsb isFatal sigs = true) as Hex
        by (apply existsb_exists; now exists sig).
    congruence. }
  rewrite Hf in Hr.
  destruct (deliverAll programOf sigs _) as [tr [ab | [[] st']]];
    cbn [fst snd] in *; [discriminate Hr|].
  repeat split; assumption.
Qed.

Lemma runProcess_reports_every_signal_witness :
  notifications
    (fst (runProcess (fun c => c)
            [errorOccurred Timedout; started 12; errorOccurred UnknownError;
             finished 2 NormalExit]
            (qs "emu") ProcessLauncher_new))
  = [NFailed Timedout; NStarted 12; NFailed UnknownError;
     NFinished 2 NormalExit].
Proof.
  apply (runProcess_reports_every_signal (fun c => c)
           [errorOccurred Timedout; started 12; errorOccurred UnknownError;
            finished 2 NormalExit]
           (qs "emu")).
  reflexivity.
Defined.

(** The trace of every launch, whatever the launcher owns and whatever
    the QProcess signals: the lines of [createLaunchCommand], the
    separator and the command; then the trace of [runProcess], in which
    every event is a line that one of the three slots writes (no
    separator, no command line, no parameter line, no signal), at most
    one for each signal of the QProcess; and at the end the signal
    [processFinished] exactly when [launchGame] returns; an aborted
    launch never sends it. *)
Theorem launchGame_trace
    (programOf : QString -> QString) (sigs : list QProcessSignal)
    (tmpl rom : QString) (st : ProcessLauncher) :
  fst (launchGame programOf sigs tmpl rom st)
  = preamble tmpl rom
    ++ fst (runProcess programOf sigs (createLaunchCommand tmpl rom) st)
    ++ (if returned (launchGame programOf sigs tmpl rom st)
        then [processFinished] else [])
  /\ forallb isSlotLine
       (fst (runProcess programOf sigs (createLaunchCommand tmpl rom) st))
     = true
  /\ List.length
       (fst (runProcess programOf sigs (createLaunchCommand tmpl rom) st))
     <= List.length sigs
  /\ countDone (fst (launchGame programOf sigs tmpl rom st))
     = (if returned (launchGame programOf sigs tmpl rom st) then 1 else 0).
Proof.
  rewrite launchGame_unfold.
  pose proof (runProcess_logs programOf sigs (createLaunchCommand tmpl rom) st)
    as Hl.
  pose proof (runProcess_slot_lines programOf sigs
                (createLaunchCommand tmpl rom) st) as Hs.
  pose proof (runProcess_length programOf sigs
                (createLaunchCommand tmpl rom) st) as Hn.
  destruct (runProcess programOf sigs (createLaunchCommand tmpl rom) st)
    as [tr [ab | [[] st']]]; cbn [fst] in Hl, Hs, Hn;
    unfold returned; cbn [fst snd].
  - rewrite app_nil_r. repeat split; try assumption.
    rewrite countDone_app, (countDone_logs _ Hl). reflexivity.
  - repeat split; try assumption.
    rewrite !countDone_app, (countDone_logs _ Hl). reflexivity.
Qed.

(** Two launches in a row.  When [launchGame] has returned, the launcher
    still holds the process of that launch: a second [launchGame] before
    the event loop has deleted it logs its command and fails the
    assertion of line 69; once the event loop has run, the second launch
    goes as from a new launcher. *)
Theorem launchGame_twice
    (programOf : QString -> QString) (sigs sigs2 : list QProcessSignal)
    (tmpl rom tmpl2 rom2 : QString) (st st' : ProcessLauncher)
    (tr : list Event) :
  launchGame programOf sigs tmpl rom st = (tr, inr (tt, st')) ->
  launchGame programOf sigs2 tmpl2 rom2 st'
  = (preamble tmpl2 rom2, inl (AssertFailed 69))
  /\ launchGame programOf sigs2 tmpl2 rom2 (eventLoopDeletes st')
     = launchGame programOf sigs2 tmpl2 rom2 ProcessLauncher_new.
Proof.
  rewrite launchGame_unfold.
  destruct (runProcess programOf sigs (createLaunchCommand tmpl rom) st)
    as [tr1 [ab | [[] st1]]] eqn:E; [discriminate|].
  intros H. injection H as _ <-.
  destruct (relaunch_before_deletion programOf _ _ _ E) as [Hagain Hfree].
  split.
  - rewrite launchGame_unfold, Hagain. now rewrite app_nil_r.
  - destruct (eventLoopDeletes st1) as [p]. cbn [process] in Hfree.
    subst p. reflexivity.
Qed.

Lemma launchGame_twice_witness :
  launchGame (fun c => c) [started 8; finished 0 NormalExit]
    (qs "emu %ROM%") (qs "/roms/b.rom")
    (mkLauncher (Some (mkQProcess (qs "emu /roms/a.rom") 7 true true)))
  = (preamble (qs "emu %ROM%") (qs "/roms/b.rom"), inl (AssertFailed 69)).
Proof.
  apply (proj1 (@launchGame_twice (fun c => c)
                  [started 7; finished 0 NormalExit]
                  [started 8; finished 0 NormalExit]
                  (qs "emu %ROM%") (qs "/roms/a.rom") (qs "emu %ROM%")
                  (qs "/roms/b.rom") ProcessLauncher_new
                  (mkLauncher
                     (Some (mkQProcess (qs "emu /roms/a.rom") 7 true true)))
                  (preamble (qs "emu %ROM%") (qs "/roms/a.rom")
                   ++ [Log QtInfoMsg (ProcessStarted 7);
                       Log QtInfoMsg (FinishedCleanly 0); processFinished])
                  eq_refl)).
Defined.

(** ** The empty path *)

Lemma join_nil (gaps : list QString) : join [] gaps = List.concat gaps.
Proof.
  induction gaps as [|g rest IH]; [reflexivity|].
  destruct rest as [|g' rest].
  - cbn [join List.concat]. now rewrite app_nil_r.
  - change (join [] (g :: g' :: rest)) with (g ++ [] ++ join [] (g' :: rest)).
    rewrite IH. reflexivity.
Qed.

(** For the empty path both parameters are empty.  In a command string
    made of occurrences of one keyword form, with pieces between them that
    leave the occurrences recognisable ([gaps_ok]), every occurrence, with
    the quotes written around it, is then deleted: only the pieces are
    left.  Without the condition on the pieces this fails:
    [%BASENAME%ROM%BASENAME%] keeps both names. *)
Theorem createLaunchCommand_empty_path (f : Form) (k : Keyword)
    (gaps : list QString) :
  params [] PATH = []
  /\ params [] BASENAME = []
  /\ (gaps_ok f gaps = true ->
      createLaunchCommand (join (token f k) gaps) [] = List.concat gaps)
  /\ createLaunchCommand (qs "%BASENAME%ROM%BASENAME%") []
     = qs "%BASENAMEBASENAME%".
Proof.
  split; [reflexivity|]. split; [reflexivity|]. split; [|reflexivity].
  intros Hok.
  assert (params [] (keywordParam k) = []) as Hv by (now destruct k).
  destruct f; cbn [token].
  - unfold gaps_ok in Hok. apply andb_true_iff in Hok as [Hp _].
    rewrite createLaunchCommand_join_quoted by (assumption || reflexivity).
    rewrite Hv. apply join_nil.
  - rewrite createLaunchCommand_join_bare by (assumption || reflexivity).
    rewrite Hv. apply join_nil.
Qed.

Lemma createLaunchCommand_empty_path_witness :
  createLaunchCommand (qs "emu " ++ quoted ROM ++ qs " --fullscreen") []
  = qs "emu  --fullscreen".
Proof.
  apply (proj1 (proj2 (proj2 (createLaunchCommand_empty_path QuotedForm KwROM
                                [qs "emu "; qs " --fullscreen"])))).
  reflexivity.
Defined.
